(** * libopenapi: the inline and composed bundler, and the schema proxy

    A shallow embedding of [bundler.go] (BundleBytes, BundleBytesComposed,
    BundleDocument, BundleDocumentComposed, compose, bundle,
    collectDiscriminatorMappingValues, walkDiscriminatorMapping,
    walkUnionRefs) and of [schema_proxy.go] (SchemaProxy.Schema,
    GetBuildError), with the Go heap of [*yaml.Node] values written out:
    nodes live in a store addressed by pointers, and a [Content] field is a
    slice header over a backing array, so that the one mutation the inline
    bundler performs, [sequenced.Node.Content = mappedReference.Node.Content],
    means here what it means in Go. *)

From stdpp Require Import gmap strings list fin_maps.
From Stdlib Require Import Ascii String.

Open Scope string_scope.
Open Scope list_scope.

Set Warnings "-clear-no-such-hyp".

(** ** The Go [strings] functions the bundler calls *)

(** [strings.Contains(s, substr)]. *)
Fixpoint strings_Contains (s substr : string) : bool :=
  String.prefix substr s ||
  match s with
  | EmptyString => false
  | String _ s' => strings_Contains s' substr
  end.

(** The scan of [strings.Split(s, sep)] for a non-empty [sep]: [skip] counts
    the characters of a separator still to be passed over, [cur] is the piece
    being read. *)
Fixpoint split_from (sep s : string) (skip : nat) (cur : string) : list string :=
  match s with
  | EmptyString => [cur]
  | String c s' =>
      match skip with
      | S k => split_from sep s' k cur
      | O =>
          if String.prefix sep s
          then cur :: split_from sep s' (String.length sep - 1) EmptyString
          else split_from sep s' 0 (cur +:+ String c EmptyString)
      end
  end.

(** [strings.Split(s, sep)]; the bundler only splits on ["#/"]. *)
Definition strings_Split (s sep : string) : list string :=
  split_from sep s 0 EmptyString.

(** ** Panics, and computations over the heap *)

(** What stops a Go run: a nil pointer dereference, an index out of range, or
    a recursion that exhausts the stack (the walk below recurses on the node
    graph, and takes its depth bound as an argument). *)
Inductive panic : Set :=
| NilDereference
| IndexOutOfRange
| StackExhausted.

Inductive res (A : Type) : Type :=
| Ok (a : A)
| Panic (p : panic).
Arguments Ok {A} a.
Arguments Panic {A} p.

Definition res_bind {A B} (r : res A) (k : A -> res B) : res B :=
  match r with
  | Ok a => k a
  | Panic p => Panic p
  end.

(** Left-to-right iteration that stops at the first panic: a [for ... range]
    whose body updates an accumulator. *)
Fixpoint res_fold {A B} (f : B -> A -> res B) (l : list A) (b : B) : res B :=
  match l with
  | [] => Ok b
  | a :: l' => res_bind (f b a) (res_fold f l')
  end.

(** ** yaml.v3 nodes on the heap *)

(** A [*yaml.Node]: an address. An address the store does not map is the nil
    pointer (Go has no dangling pointers). *)
Definition ptr := nat.

Inductive Kind : Set :=
| DocumentNode
| SequenceNode
| MappingNode
| ScalarNode
| AliasNode.

Global Instance Kind_eq_dec : EqDecision Kind.
Proof. solve_decision. Defined.

(** A slice header [[]*yaml.Node]: the backing array it points into and the
    window it shows. Assigning a slice copies the header and shares the
    array. ([cap] is never read by the bundler and is left out.) *)
Record slice : Set := mkSlice {
  s_arr : nat;
  s_off : nat;
  s_len : nat
}.

Global Instance slice_eq_dec : EqDecision slice.
Proof. solve_decision. Defined.

(** The fields of [yaml.Node] the bundler reads or writes. *)
Record YamlNode : Set := mkNode {
  Kind_ : Kind;
  Value : string;
  Content : slice
}.

Global Instance YamlNode_eq_dec : EqDecision YamlNode.
Proof. solve_decision. Defined.

Inductive Level : Set := LevelDebug | LevelWarn.

(** One call on a [*slog.Logger]: which logger, the level, the message and
    the value of its ["ref"] attribute. *)
Record LogRecord : Set := mkLog {
  lg_logger : nat;
  lg_level : Level;
  lg_msg : string;
  lg_ref : string
}.

(** BundleCompositionConfig is used to configure the composition of OpenAPI
    documents; [Delimiter] separates clashing names. *)
Record BundleCompositionConfig : Set := mkConfig {
  Delimiter : string
}.

(** The heap: the node store, the backing arrays of the [Content] slices,
    the [BundleCompositionConfig] values callers hold a pointer to, and the
    log calls made so far (oldest first). *)
Record St : Type := mkSt {
  nodes : gmap nat YamlNode;
  arrays : gmap nat (list ptr);
  configs : gmap nat BundleCompositionConfig;
  logs : list LogRecord
}.

(** The elements a slice shows. *)
Definition elems (st : St) (s : slice) : list ptr :=
  take (s_len s) (drop (s_off s) (default [] (arrays st !! s_arr s))).

(** [*p] for a node pointer. *)
Definition deref (st : St) (p : ptr) : res YamlNode :=
  match nodes st !! p with
  | Some n => Ok n
  | None => Panic NilDereference
  end.

(** Computations that change the heap and may panic; after a panic the heap
    is the one the panic left. *)
Definition M (A : Type) : Type := St -> St * res A.

Definition ret {A} (a : A) : M A := fun st => (st, Ok a).

Definition throw {A} (p : panic) : M A := fun st => (st, Panic p).

Definition bind {A B} (m : M A) (k : A -> M B) : M B :=
  fun st =>
    match m st with
    | (st', Ok a) => k a st'
    | (st', Panic p) => (st', Panic p)
    end.

Notation "x <- m ;; k" := (bind m (fun x => k))
  (at level 100, m at next level, right associativity).
Notation "m ;;; k" := (bind m (fun _ => k))
  (at level 100, right associativity).

(** A heap-reading computation lifted into [M]. *)
Definition lift {A} (f : St -> res A) : M A := fun st => (st, f st).

(** [for _, x := range l { body(x) }]. *)
Fixpoint for_each {A} (body : A -> M unit) (l : list A) : M unit :=
  match l with
  | [] => ret tt
  | a :: l' => body a ;;; for_each body l'
  end.

(** [p.Content = s]. *)
Definition set_Content (p : ptr) (s : slice) : M unit :=
  fun st =>
    match nodes st !! p with
    | Some n =>
        (mkSt (<[p := mkNode (Kind_ n) (Value n) s]> (nodes st)) (arrays st) (configs st)
              (logs st),
         Ok tt)
    | None => (st, Panic NilDereference)
    end.

(** A call [logger.Debug(msg, "ref", ref)] or [logger.Warn(...)]; on a nil
    logger the call dereferences nil. *)
Definition log_call (logger : option nat) (lvl : Level) (msg ref : string) : M unit :=
  fun st =>
    match logger with
    | Some l =>
        (mkSt (nodes st) (arrays st) (configs st) (logs st ++ [mkLog l lvl msg ref]),
         Ok tt)
    | None => (st, Panic NilDereference)
    end.

(** ** Indexes, references and the rolodex *)

(** An [*index.Reference], with the fields the bundler reads. [Index] is the
    owning [*SpecIndex], kept as what the bundler asks of it,
    [GetSpecAbsolutePath()]; [None] is a nil [Index]. *)
Record Reference : Set := mkRef {
  FullDefinition : string;
  Definition_ : string;
  Node : ptr;
  Circular : bool;
  Index : option string
}.

(** An [*index.SpecIndex] as its accessors show it: [GetSpecAbsolutePath],
    [GetRootNode], [GetMappedReferences], [GetRawReferencesSequenced] and
    [GetLogger] ([None]: a nil logger). *)
Record SpecIndex : Type := mkIndex {
  specAbsolutePath : string;
  rootNode : ptr;
  allMappedRefs : gmap string Reference;
  rawSequencedRefs : list Reference;
  logger : option nat
}.

(** An [*index.Rolodex]: [GetRootIndex] ([None]: nil) and [GetIndexes]. *)
Record Rolodex : Type := mkRolodex {
  rootIndex : option SpecIndex;
  indexes : list SpecIndex
}.

(** A [*v3.Document]; the bundler reads its [Rolodex] field ([None]: nil). *)
Record Document : Type := mkDocument {
  Rolodex_ : option Rolodex
}.

(** The lookups of package [index] that the bundler calls and whose code is
    outside this development. [FindComponent] returns the reference of a
    component of one index or nil; [SearchIndexForReference] returns the
    reference found across the rolodex together with the index that owns it,
    or nil. Both are lookups: they leave the node store alone. *)
Class IndexLookups : Type := {
  FindComponent : SpecIndex -> string -> option Reference;
  SearchIndexForReference : SpecIndex -> string -> option (Reference * SpecIndex)
}.

(** ** Errors *)

(** Go [error] values as the bundler builds them: the package's sentinel
    [ErrInvalidModel], a fresh [errors.New(msg)], the result of
    [errors.Join], and an error made by another package (document creation,
    model building, rendering), which is never the bundler's sentinel. *)
#[warnings="-register-all"] Inductive error : Type :=
| ErrInvalidModel
| errors_New (msg : string)
| joinError (errs : list error)
| External (msg : string).



Definition bytes := string.

(** ** The discriminator walk (bundler.go, collectDiscriminatorMappingValues) *)

Section Walk.
Context `{IndexLookups}.
Variable st : St.

(** [pinned[refIdx.GetSpecAbsolutePath() + ref.Definition] = struct{}{}]
    when [idx.SearchIndexForReference(refValue)] finds a reference. *)
Definition pin (idx : SpecIndex) (refValue : string) (pinned : gset string) : gset string :=
  match SearchIndexForReference idx refValue with
  | Some (ref, refIdx) => {[ specAbsolutePath refIdx +:+ Definition_ ref ]} ∪ pinned
  | None => pinned
  end.

(** The inner loop of walkDiscriminatorMapping over [mappingNode.Content],
    two at a time; only the second of each pair is read. *)
Fixpoint walkMappingEntries (idx : SpecIndex) (l : list ptr) (pinned : gset string)
  : res (gset string) :=
  match l with
  | [] => Ok pinned
  | [_] => Panic IndexOutOfRange
  | _ :: v :: l' =>
      res_bind (deref st v) (fun vn =>
      walkMappingEntries idx l' (pin idx (Value vn) pinned))
  end.

(** The outer loop of walkDiscriminatorMapping over
    [discriminatorNode.Content]: the key at [i] is read, the value at
    [i+1] only under a ["mapping"] key. *)
Fixpoint walkDiscriminatorEntries (idx : SpecIndex) (l : list ptr) (pinned : gset string)
  : res (gset string) :=
  match l with
  | [] => Ok pinned
  | [k] =>
      res_bind (deref st k) (fun kn =>
      if decide (Value kn = "mapping") then Panic IndexOutOfRange else Ok pinned)
  | k :: mappingNode :: l' =>
      res_bind (deref st k) (fun kn =>
      if decide (Value kn = "mapping")
      then res_bind (deref st mappingNode) (fun mn =>
           res_bind (walkMappingEntries idx (elems st (Content mn)) pinned) (fun pinned' =>
           walkDiscriminatorEntries idx l' pinned'))
      else walkDiscriminatorEntries idx l' pinned)
  end.

Definition walkDiscriminatorMapping (idx : SpecIndex) (discriminatorNode : YamlNode)
    (pinned : gset string) : res (gset string) :=
  if decide (Kind_ discriminatorNode = MappingNode)
  then walkDiscriminatorEntries idx (elems st (Content discriminatorNode)) pinned
  else Ok pinned.

(** The loop of walkUnionRefs over the pairs of one [item.Content]. *)
Fixpoint walkItemEntries (idx : SpecIndex) (l : list ptr) (pinned : gset string)
  : res (gset string) :=
  match l with
  | [] => Ok pinned
  | [_] => Panic IndexOutOfRange
  | k :: v :: l' =>
      res_bind (deref st k) (fun kn =>
      if decide (Value kn = "$ref")
      then res_bind (deref st v) (fun vn =>
           if decide (Kind_ vn = ScalarNode)
           then walkItemEntries idx l' (pin idx (Value vn) pinned)
           else walkItemEntries idx l' pinned)
      else walkItemEntries idx l' pinned)
  end.

(** [seq] is a local that is nil until a [oneOf] / [anyOf] key assigns it. *)
Definition walkUnionRefs (idx : SpecIndex) (seq : option ptr) (pinned : gset string)
  : res (gset string) :=
  match seq with
  | None => Ok pinned
  | Some p =>
      match nodes st !! p with
      | None => Ok pinned
      | Some sn =>
          if decide (Kind_ sn = SequenceNode)
          then res_fold
                 (fun pinned item =>
                    res_bind (deref st item) (fun itn =>
                    if decide (Kind_ itn = MappingNode)
                    then walkItemEntries idx (elems st (Content itn)) pinned
                    else Ok pinned))
                 (elems st (Content sn)) pinned
          else Ok pinned
      end
  end.

(** The three locals [discriminator, oneOf, anyOf] of
    collectDiscriminatorMappingValues. *)
Record Locals : Set := mkLocals {
  discriminator : option ptr;
  oneOf : option ptr;
  anyOf : option ptr
}.

(** [switch k.Value { case "discriminator": ...; case "oneOf": ...;
    case "anyOf": ... }]. *)
Definition assignLocal (key : string) (v : ptr) (lc : Locals) : Locals :=
  if decide (key = "discriminator") then mkLocals (Some v) (oneOf lc) (anyOf lc)
  else if decide (key = "oneOf") then mkLocals (discriminator lc) (Some v) (anyOf lc)
  else if decide (key = "anyOf") then mkLocals (discriminator lc) (oneOf lc) (Some v)
  else lc.

(** The loop over the pairs of a mapping node: both of [n.Content[i]] and
    [n.Content[i+1]] are read, the key is switched on, and the walk
    recurses into the value through [rec]. *)
Fixpoint walkPairs (rec : ptr -> gset string -> res (gset string))
    (l : list ptr) (lc : Locals) (pinned : gset string) : res (Locals * gset string) :=
  match l with
  | [] => Ok (lc, pinned)
  | [_] => Panic IndexOutOfRange
  | k :: v :: l' =>
      res_bind (deref st k) (fun kn =>
      res_bind (rec v pinned) (fun pinned' =>
      walkPairs rec l' (assignLocal (Value kn) v lc) pinned'))
  end.

(** What a mapping node adds for itself once its children are walked:
    nothing unless [discriminator] was assigned a non-nil node. *)
Definition pinNode (idx : SpecIndex) (lc : Locals) (pinned : gset string)
  : res (gset string) :=
  match discriminator lc with
  | None => Ok pinned
  | Some d =>
      match nodes st !! d with
      | None => Ok pinned
      | Some dn =>
          res_bind (walkDiscriminatorMapping idx dn pinned) (fun p1 =>
          res_bind (walkUnionRefs idx (oneOf lc) p1) (fun p2 =>
          walkUnionRefs idx (anyOf lc) p2))
      end
  end.

(** [if n.Kind == yaml.DocumentNode && len(n.Content) > 0 { n = n.Content[0] }]. *)
Definition unwrapDocument (p : ptr) : res YamlNode :=
  res_bind (deref st p) (fun n =>
  if decide (Kind_ n = DocumentNode)
  then match elems st (Content n) with
       | c :: _ => deref st c
       | [] => Ok n
       end
  else Ok n).

(** collectDiscriminatorMappingValues; [depth] bounds the recursion. *)
Fixpoint collectDiscriminatorMappingValues (depth : nat) (idx : SpecIndex) (p : ptr)
    (pinned : gset string) : res (gset string) :=
  match depth with
  | O => Panic StackExhausted
  | S depth' =>
      res_bind (unwrapDocument p) (fun n =>
      match Kind_ n with
      | SequenceNode =>
          res_fold (fun pinned c => collectDiscriminatorMappingValues depth' idx c pinned)
                   (elems st (Content n)) pinned
      | MappingNode =>
          res_bind
            (walkPairs (collectDiscriminatorMappingValues depth' idx)
                       (elems st (Content n)) (mkLocals None None None) pinned)
            (fun '(lc, pinned') => pinNode idx lc pinned')
      | _ => Ok pinned
      end)
  end.

End Walk.

(** ** The inline bundler (bundler.go, bundle) *)

(** [model.Render()], whose code is outside this development: it reads the
    node store and returns the rendered bytes and an error. *)
Class Renderer : Type := {
  Render : Document -> St -> option bytes * option error
}.

Section Inline.
Context `{IndexLookups} `{Renderer}.

(** The loop of the root pass that picks the index owning the file part of
    the reference (issue 397): the first index at that path whose
    [FindComponent] answers replaces [mappedReference], provided
    [mappedReference] is there and not circular. *)
Fixpoint useCorrectIndex (indexes : list SpecIndex) (file definition : string)
    (mappedReference : option Reference) : option Reference :=
  match indexes with
  | [] => mappedReference
  | i :: rest =>
      let next := useCorrectIndex rest file definition mappedReference in
      if decide (specAbsolutePath i = file)
      then match mappedReference with
           | Some m =>
               if Circular m then next
               else match FindComponent i definition with
                    | Some mr => Some mr
                    | None => next
                    end
           | None => next
           end
      else next
  end.

(** The tail of one iteration of [compact], from the preserve check on. *)
Definition inlineReference (preserveRefs : gset string) (idx : SpecIndex)
    (sequenced : Reference) (mappedReference : option Reference) : M unit :=
  if decide (FullDefinition sequenced ∈ preserveRefs)
  then log_call (logger idx) LevelDebug
         "[bundler] skipping union type (oneOf/anyOf) with discriminator mapping"
         (Definition_ sequenced)
  else match mappedReference with
       | Some m =>
           if Circular m
           then match logger idx with
                | Some _ =>
                    log_call (logger idx) LevelWarn
                      "[bundler] skipping circular reference" (FullDefinition sequenced)
                | None => ret tt
                end
           else target <- lift (fun st => deref st (Node m)) ;;
                set_Content (Node sequenced) (Content target)
       | None => ret tt
       end.

(** [mappedReference] as it stands when an iteration of [compact] reaches
    the preserve check: the entry of the index's mapped references under
    [sequenced.FullDefinition], re-resolved in the root pass when the
    full definition splits in two around ["#/"]. *)
Definition mappedReferenceOf (indexes : list SpecIndex) (idx : SpecIndex) (root : bool)
    (sequenced : Reference) : option Reference :=
  let mappedReference := allMappedRefs idx !! FullDefinition sequenced in
  match strings_Split (FullDefinition sequenced) "#/" with
  | [file; _] =>
      if root
      then useCorrectIndex indexes file (Definition_ sequenced) mappedReference
      else mappedReference
  | _ => mappedReference
  end.

(** Whether the iteration stops at ["skipping local root reference"]:
    in the root pass, a full definition that splits in two and whose file
    part is the path of [sequenced.Index] or empty. Reading the path of a
    nil [sequenced.Index] panics, in either pass. *)
Definition skipsLocalRoot (root : bool) (sequenced : Reference) : res bool :=
  match strings_Split (FullDefinition sequenced) "#/" with
  | [file; _] =>
      match Index sequenced with
      | None => Panic NilDereference
      | Some path => Ok ((bool_decide (file = path) || bool_decide (file = "")) && root)
      end
  | _ => Ok false
  end.

(** One iteration of the loop of [compact] over the sequenced references. *)
Definition compactReference (preserveRefs : gset string) (indexes : list SpecIndex)
    (idx : SpecIndex) (root : bool) (sequenced : Reference) : M unit :=
  let mappedReference := mappedReferenceOf indexes idx root sequenced in
  skip <- lift (fun _ => skipsLocalRoot root sequenced) ;;
  if (skip : bool)
  then log_call (logger idx) LevelDebug
         "[bundler] skipping local root reference" (Definition_ sequenced)
  else inlineReference preserveRefs idx sequenced mappedReference.

(** The closure [compact]. *)
Definition compact (preserveRefs : gset string) (indexes : list SpecIndex)
    (idx : SpecIndex) (root : bool) : M unit :=
  for_each (compactReference preserveRefs indexes idx root) (rawSequencedRefs idx).

(** The preserve set as [bundle] fills it before compacting: the walk of
    the root index, then of every index in order. *)
Definition collectPreserveRefs (depth : nat) (rootIdx : SpecIndex)
    (indexes : list SpecIndex) (st : St) : res (gset string) :=
  res_bind (collectDiscriminatorMappingValues st depth rootIdx (rootNode rootIdx) ∅)
    (fun pinned =>
       res_fold (fun pinned idx =>
                   collectDiscriminatorMappingValues st depth idx (rootNode idx) pinned)
                indexes pinned).

Definition bundle (depth : nat) (model : option Document) : M (option bytes * option error) :=
  match model with
  | None => throw NilDereference
  | Some d =>
      match Rolodex_ d with
      | None => throw NilDereference
      | Some rolodex =>
          match rootIndex rolodex with
          | None => throw NilDereference
          | Some rootIdx =>
              preserveRefs <- lift (collectPreserveRefs depth rootIdx (indexes rolodex)) ;;
              for_each (fun idx => compact preserveRefs (indexes rolodex) idx false)
                       (indexes rolodex) ;;;
              compact preserveRefs (indexes rolodex) rootIdx true ;;;
              lift (fun st => Ok (Render d st))
          end
      end
  end.

Definition BundleDocument (depth : nat) (model : option Document)
  : M (option bytes * option error) :=
  bundle depth model.

End Inline.

(** ** The composed bundler (bundler.go, compose) *)

(** What [compose] does once the delimiter and the model are checked (from
    [rolodex := model.Rolodex] to the final [errors.Join]): it runs
    handleIndex, processReference, remapIndex and [model.Render], whose code
    is outside this development. It receives the model, its rolodex and the
    configuration in effect. *)
Class Composer : Type := {
  composeRolodex : Document -> Rolodex -> BundleCompositionConfig
                   -> M (option bytes * option error)
}.

Section Compose.
Context `{Composer}.

(** [compositionConfig.Delimiter = "__"], through the caller's pointer. *)
Definition set_Delimiter (c : nat) (d : string) : M unit :=
  fun st => (mkSt (nodes st) (arrays st) (<[c := mkConfig d]> (configs st)) (logs st),
             Ok tt).

(** The delimiter checks on a configuration the caller supplied. *)
Definition checkDelimiter (delimiter : string) : option error :=
  if strings_Contains delimiter "#" || strings_Contains delimiter "/"
  then Some (errors_New "composition delimiter cannot contain '#' or '/' characters")
  else if strings_Contains delimiter " "
  then Some (errors_New "composition delimiter cannot contain spaces")
  else None.

(** From [if model == nil || model.Rolodex == nil] on. *)
Definition composeChecked (model : option Document) (cfg : BundleCompositionConfig)
  : M (option bytes * option error) :=
  match model with
  | None => ret (None, Some (errors_New "model or rolodex is nil"))
  | Some d =>
      match Rolodex_ d with
      | None => ret (None, Some (errors_New "model or rolodex is nil"))
      | Some rolodex => composeRolodex d rolodex cfg
      end
  end.

(** [compose]; [compositionConfig] is a pointer, nil when the heap holds no
    configuration at it. *)
Definition compose (model : option Document) (compositionConfig : nat)
  : M (option bytes * option error) :=
  fun st =>
    match configs st !! compositionConfig with
    | None => composeChecked model (mkConfig "__")
    | Some cfg =>
        (if decide (Delimiter cfg = "")
         then set_Delimiter compositionConfig "__"
         else ret tt) ;;;
        (let delimiter := if decide (Delimiter cfg = "") then "__" else Delimiter cfg in
         match checkDelimiter delimiter with
         | Some e => ret (None, Some e)
         | None => composeChecked model (mkConfig delimiter)
         end)
    end st.

Definition BundleDocumentComposed (model : option Document) (compositionConfig : nat)
  : M (option bytes * option error) :=
  compose model compositionConfig.

End Compose.

(** The characters of a delimiter that [compose] refuses. *)
Definition refused (delimiter : string) : Prop :=
  In "#"%char (list_ascii_of_string delimiter) \/
  In "/"%char (list_ascii_of_string delimiter) \/
  In " "%char (list_ascii_of_string delimiter).

(** ** The byte entry points (bundler.go, BundleBytes, BundleBytesComposed) *)


Section Bytes.
Context `{IndexLookups} `{Renderer} `{Composer} `{DocumentLoader}.





End Bytes.

(** ** The schema proxy (schema_proxy.go) *)

(** Building a [Schema] out of a node, whose code ([low.BuildModel],
    [Schema.Build]) is outside this development: the zero [Schema] that
    [new(Schema)] allocates, and the two build steps, which read the heap. *)
Class SchemaBuilder : Type := {
  SchemaFields : Type;
  zeroSchema : SchemaFields;
  low_BuildModel : St -> ptr -> SchemaFields -> SchemaFields;
  Schema_Build : St -> SchemaFields -> ptr -> option SpecIndex -> SchemaFields * option error
}.

(** SchemaProxy exists as a stub that will create a Schema once (and only
    once) the Schema() method is called. [rendered] is a [*Schema]: the
    address of a schema object, [None] for nil. *)
Record SchemaProxy : Type := mkProxy {
  kn : ptr;
  vn : ptr;
  idx : option SpecIndex;
  rendered : option nat;
  buildError : option error
}.

Section Proxy.
Context `{SchemaBuilder}.

(** The heap a proxy works on: the nodes, and the [Schema] objects
    allocated so far ([new(Schema)] appends one; its address is its
    position). *)
Record ProxyHeap : Type := mkProxyHeap {
  yaml : St;
  schemas : list SchemaFields
}.

(** The zero value of [SchemaProxy]. *)
Definition zeroProxy : SchemaProxy := mkProxy 0 0 None None None.

(** Build will prepare the SchemaProxy for rendering, it does not build
    the Schema, only sets up internal state. *)
Definition Build (sp : SchemaProxy) (root : ptr) (i : option SpecIndex)
  : SchemaProxy * option error :=
  (mkProxy (kn sp) root i (rendered sp) (buildError sp), None).

(** Schema(): the receiver after the call, the heap after the call, and
    the returned [*Schema]. *)
Definition Schema (sp : SchemaProxy) (h : ProxyHeap) : SchemaProxy * ProxyHeap * option nat :=
  match rendered sp with
  | Some s => (sp, h, Some s)
  | None =>
      let schema := List.length (schemas h) in
      let built := low_BuildModel (yaml h) (vn sp) zeroSchema in
      let '(fields, err) := Schema_Build (yaml h) built (vn sp) (idx sp) in
      let h' := mkProxyHeap (yaml h) (schemas h ++ [fields]) in
      match err with
      | Some e => (mkProxy (kn sp) (vn sp) (idx sp) (rendered sp) (Some e), h', None)
      | None => (mkProxy (kn sp) (vn sp) (idx sp) (Some schema) (buildError sp), h',
                 Some schema)
      end
  end.

(** GetBuildError returns the build error that was set when Schema() was
    called. *)
Definition GetBuildError (sp : SchemaProxy) : option error := buildError sp.

(** Schema() called again [n] more times after a first call; the outcome
    of the last call. *)
Fixpoint Schema_again (n : nat) (sp : SchemaProxy) (h : ProxyHeap)
  : SchemaProxy * ProxyHeap * option nat :=
  match n with
  | O => Schema sp h
  | S n' => let '(sp', h', _) := Schema sp h in Schema_again n' sp' h'
  end.

End Proxy.

(** ** A two-file document used in the examples

    [/spec/main.yaml] (nodes 1 to 25) and [/spec/ext.yaml] (nodes 30 to 43):
<<
    a:   {$ref: '#/components/schemas/A'}               Tree: type: object
    b:   {$ref: 'ext.yaml#/components/schemas/Tree'}          self: {$ref: '#/components/schemas/Tree'}
    A:   {type: string}                                 Cat:  type: object
    Pet: discriminator: {propertyName: kind}
         oneOf: [{$ref: 'ext.yaml#/components/schemas/Cat'}]
>>
    Every node's [Content] has a backing array of its own, numbered like the
    node. *)
Module Demo.

Definition scalar (v : string) : YamlNode := mkNode ScalarNode v (mkSlice 0 0 0).
Definition mapping (arr len : nat) : YamlNode := mkNode MappingNode "" (mkSlice arr 0 len).
Definition sequence (arr len : nat) : YamlNode := mkNode SequenceNode "" (mkSlice arr 0 len).
Definition document (arr : nat) : YamlNode := mkNode DocumentNode "" (mkSlice arr 0 1).

Definition main_path : string := "/spec/main.yaml".
Definition ext_path : string := "/spec/ext.yaml".
Definition def_A : string := "#/components/schemas/A".
Definition def_Tree : string := "#/components/schemas/Tree".
Definition def_Cat : string := "#/components/schemas/Cat".

Definition demo_nodes : gmap nat YamlNode :=
  list_to_map
    [ (1, document 1); (2, mapping 2 8);
      (3, scalar "a"); (4, mapping 4 2);
      (5, scalar "b"); (6, mapping 6 2);
      (7, scalar "A"); (8, mapping 8 2);
      (9, scalar "Pet"); (10, mapping 10 4);
      (11, scalar "$ref"); (12, scalar "#/components/schemas/A");
      (13, scalar "$ref"); (14, scalar "ext.yaml#/components/schemas/Tree");
      (15, scalar "type"); (16, scalar "string");
      (17, scalar "discriminator"); (18, mapping 18 2);
      (19, scalar "oneOf"); (20, sequence 20 1);
      (21, scalar "propertyName"); (22, scalar "kind");
      (23, mapping 23 2);
      (24, scalar "$ref"); (25, scalar "ext.yaml#/components/schemas/Cat");
      (30, document 30); (31, mapping 31 4);
      (32, scalar "Tree"); (33, mapping 33 4);
      (34, scalar "Cat"); (35, mapping 35 2);
      (36, scalar "type"); (37, scalar "object");
      (38, scalar "self"); (39, mapping 39 2);
      (40, scalar "type"); (41, scalar "object");
      (42, scalar "$ref"); (43, scalar "#/components/schemas/Tree") ].

Definition demo_arrays : gmap nat (list ptr) :=
  list_to_map
    [ (1, [2]); (2, [3; 4; 5; 6; 7; 8; 9; 10]);
      (4, [11; 12]); (6, [13; 14]); (8, [15; 16]); (10, [17; 18; 19; 20]);
      (18, [21; 22]); (20, [23]); (23, [24; 25]);
      (30, [31]); (31, [32; 33; 34; 35]);
      (33, [36; 37; 38; 39]); (35, [40; 41]); (39, [42; 43]) ].

Definition demo_st : St := mkSt demo_nodes demo_arrays ∅ [].

(** The reference sites. *)
Definition site_a : Reference := mkRef (main_path +:+ def_A) def_A 4 false (Some main_path).
Definition site_b : Reference := mkRef (ext_path +:+ def_Tree) def_Tree 6 false (Some main_path).
Definition site_cat : Reference := mkRef (ext_path +:+ def_Cat) def_Cat 23 false (Some main_path).
Definition site_self : Reference := mkRef (ext_path +:+ def_Tree) def_Tree 39 false (Some ext_path).

(** The components they resolve to; inside [ext.yaml] the reference to
    [Tree] closes a cycle. *)
Definition comp_A : Reference := mkRef (main_path +:+ def_A) def_A 8 false (Some main_path).
Definition comp_Tree : Reference := mkRef (ext_path +:+ def_Tree) def_Tree 33 false (Some ext_path).
Definition comp_Cat : Reference := mkRef (ext_path +:+ def_Cat) def_Cat 35 false (Some ext_path).
Definition comp_Tree_circular : Reference :=
  mkRef (ext_path +:+ def_Tree) def_Tree 33 true (Some ext_path).

Definition ext_index : SpecIndex :=
  mkIndex ext_path 30
    (list_to_map [ (ext_path +:+ def_Tree, comp_Tree_circular) ])
    [ site_self ]
    (Some 7).

Definition main_index : SpecIndex :=
  mkIndex main_path 1
    (list_to_map [ (main_path +:+ def_A, comp_A);
                   (ext_path +:+ def_Tree, comp_Tree);
                   (ext_path +:+ def_Cat, comp_Cat) ])
    [ site_a; site_b; site_cat ]
    (Some 7).

Definition demo_rolodex : Rolodex := mkRolodex (Some main_index) [ ext_index ].
Definition demo_model : Document := mkDocument (Some demo_rolodex).

(** Lookups over the two files: a component is found in the index of the
    file that defines it; a reference string is found whatever index the
    search starts from. *)
Definition demo_lookups : IndexLookups :=
  {| FindComponent i d :=
       if decide (specAbsolutePath i = ext_path)
       then if decide (d = def_Tree) then Some comp_Tree
            else if decide (d = def_Cat) then Some comp_Cat else None
       else if decide (specAbsolutePath i = main_path)
       then if decide (d = def_A) then Some comp_A else None
       else None;
     SearchIndexForReference _ r :=
       if decide (r = "ext.yaml#/components/schemas/Cat") then Some (comp_Cat, ext_index)
       else if decide (r = "ext.yaml#/components/schemas/Tree") then Some (comp_Tree, ext_index)
       else if decide (r = "#/components/schemas/A") then Some (comp_A, main_index)
       else None |}.

(** A renderer that only tells an empty node store from a populated one. *)
Definition demo_renderer : Renderer :=
  {| Render _ st := (Some (if decide (size (nodes st) = 0) then "" else "rendered"), None) |}.

(** The same two files with no reference site recorded in either index. *)
Definition plain_index (i : SpecIndex) : SpecIndex :=
  mkIndex (specAbsolutePath i) (rootNode i) ∅ [] (logger i).
Definition plain_model : Document :=
  mkDocument (Some (mkRolodex (Some (plain_index main_index)) [ plain_index ext_index ])).

(** Three variants in which a reference with a circular mapped reference
    does not reach the warning: [A] closing a cycle inside the root file,
    [ext.yaml] indexed without a logger, and the pinned [Cat] branch
    closing a cycle. *)
Definition comp_A_circular : Reference :=
  mkRef (main_path +:+ def_A) def_A 8 true (Some main_path).
Definition comp_Cat_circular : Reference :=
  mkRef (ext_path +:+ def_Cat) def_Cat 35 true (Some ext_path).

Definition local_cycle_model : Document :=
  mkDocument (Some (mkRolodex
    (Some (mkIndex main_path 1
             (list_to_map [ (main_path +:+ def_A, comp_A_circular);
                            (ext_path +:+ def_Tree, comp_Tree);
                            (ext_path +:+ def_Cat, comp_Cat) ])
             [ site_a; site_b; site_cat ] (Some 7)))
    [ ext_index ])).

Definition quiet_ext_index : SpecIndex :=
  mkIndex ext_path 30 (allMappedRefs ext_index) (rawSequencedRefs ext_index) None.
Definition quiet_model : Document :=
  mkDocument (Some (mkRolodex (Some main_index) [ quiet_ext_index ])).

Definition pinned_cycle_index : SpecIndex :=
  mkIndex main_path 1
    (list_to_map [ (main_path +:+ def_A, comp_A);
                   (ext_path +:+ def_Tree, comp_Tree);
                   (ext_path +:+ def_Cat, comp_Cat_circular) ])
    [ site_a; site_b; site_cat ] (Some 7).
Definition pinned_cycle_model : Document :=
  mkDocument (Some (mkRolodex (Some pinned_cycle_index) [ ext_index ])).

(** A composer that renders the delimiter it was given. *)
Definition demo_composer : Composer :=
  {| composeRolodex _ _ cfg := fun st => (st, Ok (Some ("composed" +:+ Delimiter cfg), None)) |}.

(** Heaps holding one caller's configuration at address 1: with a tab for
    delimiter, and with the empty delimiter. *)
Definition tab : string := String (ascii_of_nat 9) EmptyString.
Definition tab_st : St := mkSt demo_nodes demo_arrays {[ 1 := mkConfig tab ]} [].
Definition empty_delimiter_st : St := mkSt demo_nodes demo_arrays {[ 1 := mkConfig "" ]} [].


(** A schema builder that fails on a nil node and otherwise records the
    node's address. *)
Definition demo_builder : SchemaBuilder :=
  {| SchemaFields := nat;
     zeroSchema := 0;
     low_BuildModel _ _ s := s;
     Schema_Build st _ p _ :=
       match nodes st !! p with
       | Some _ => (p, None)
       | None => (0, Some (External "schema build failed"))
       end |}.

(** A discriminator [{propertyName: kind, mapping: [x]}] (node 1) whose
    [mapping] is a sequence of one item. *)
Definition odd_mapping_st : St :=
  mkSt (list_to_map [ (1, mapping 1 4); (2, scalar "propertyName"); (3, scalar "kind");
                      (4, scalar "mapping"); (5, sequence 5 1); (6, scalar "x") ])
       (list_to_map [ (1, [2; 3; 4; 5]); (5, [6]) ]) ∅ [].



End Demo.

(** ** What the discriminator walk visits, and what a node adds *)

(** The values of a list of (key, value) pairs: the elements at odd
    positions. *)
Fixpoint pairValues (l : list ptr) : list ptr :=
  match l with
  | _ :: v :: l' => v :: pairValues l'
  | _ => []
  end.

(** The children the walk recurses into: the items of a sequence, the values
    of a mapping. *)
Definition walkedChildren (st : St) (n : YamlNode) : list ptr :=
  match Kind_ n with
  | SequenceNode => elems st (Content n)
  | MappingNode => pairValues (elems st (Content n))
  | _ => []
  end.

(** [Visits st p q]: walking from [p], collectDiscriminatorMappingValues is
    called on [q]. *)
Inductive Visits (st : St) : ptr -> ptr -> Prop :=
| visits_here p : Visits st p p
| visits_child p n c q :
    unwrapDocument st p = Ok n ->
    c ∈ walkedChildren st n ->
    Visits st c q ->
    Visits st p q.

(** The locals [discriminator], [oneOf], [anyOf] once the loop over the
    pairs [l] is through: the last value under each key. *)
Fixpoint localsOf (st : St) (l : list ptr) (lc : Locals) : Locals :=
  match l with
  | k :: v :: l' =>
      match nodes st !! k with
      | Some kn => localsOf st l' (assignLocal (Value kn) v lc)
      | None => lc
      end
  | _ => lc
  end.

(** Whether a key of the pairs [l] reads [key]. *)
Fixpoint hasKey (st : St) (key : string) (l : list ptr) : bool :=
  match l with
  | k :: _ :: l' =>
      match nodes st !! k with
      | Some kn => bool_decide (Value kn = key) || hasKey st key l'
      | None => false
      end
  | _ => false
  end.

(** [ownPins st idx q pins]: the call on [q] lands on a mapping node, and
    [pins] is what that node adds for itself, its children aside. *)
Definition ownPins `{IndexLookups} (st : St) (idx : SpecIndex) (q : ptr)
    (pins : gset string) : Prop :=
  exists n,
    unwrapDocument st q = Ok n /\
    Kind_ n = MappingNode /\
    pinNode st idx (localsOf st (elems st (Content n)) (mkLocals None None None)) ∅
    = Ok pins.

(** A pinned string is an absolute URI: the path of the index that owns a
    reference the search found, followed by the reference's definition. *)
Definition isPinFor `{IndexLookups} (idx : SpecIndex) (x : string) : Prop :=
  exists refValue ref refIdx,
    SearchIndexForReference idx refValue = Some (ref, refIdx) /\
    x = specAbsolutePath refIdx +:+ Definition_ ref.

Definition res_map {A B} (f : A -> B) (r : res A) : res B :=
  match r with
  | Ok a => Ok (f a)
  | Panic p => Panic p
  end.

(** What the walk below [c] adds, by the nodes it visits. *)
Definition addedBelow `{IndexLookups} (st : St) (idx : SpecIndex) (c : ptr) (x : string)
  : Prop :=
  exists q pins, Visits st c q /\ ownPins st idx q pins /\ x ∈ pins.

(** [PairIn k v l]: [k] and [v] are a key and its value in the pairs [l]. *)
Inductive PairIn {A : Type} (k v : A) : list A -> Prop :=
| pair_here l : PairIn k v (k :: v :: l)
| pair_later a b l : PairIn k v l -> PairIn k v (a :: b :: l).

(** [x] is the absolute URI of the reference that the search from [idx]
    finds for the value of the scalar at [v]. *)
Definition refTarget `{IndexLookups} (st : St) (idx : SpecIndex) (v : ptr) (x : string)
  : Prop :=
  exists vn ref refIdx,
    nodes st !! v = Some vn /\
    SearchIndexForReference idx (Value vn) = Some (ref, refIdx) /\
    x = specAbsolutePath refIdx +:+ Definition_ ref.

(** [x] is a target named in the [mapping] of the discriminator node [dn]. *)
Definition mappingTarget `{IndexLookups} (st : St) (idx : SpecIndex) (dn : YamlNode)
    (x : string) : Prop :=
  Kind_ dn = MappingNode /\
  exists k kn mn mnn e v,
    PairIn k mn (elems st (Content dn)) /\
    nodes st !! k = Some kn /\ Value kn = "mapping" /\
    nodes st !! mn = Some mnn /\
    PairIn e v (elems st (Content mnn)) /\
    refTarget st idx v x.

(** [x] is the target of a [$ref] with a scalar value, in a mapping item of
    the sequence [seq] (the [oneOf] or [anyOf] local). *)
Definition unionTarget `{IndexLookups} (st : St) (idx : SpecIndex) (seq : option ptr)
    (x : string) : Prop :=
  exists p sn item itn k kn v vn,
    seq = Some p /\ nodes st !! p = Some sn /\ Kind_ sn = SequenceNode /\
    item ∈ elems st (Content sn) /\
    nodes st !! item = Some itn /\ Kind_ itn = MappingNode /\
    PairIn k v (elems st (Content itn)) /\
    nodes st !! k = Some kn /\ Value kn = "$ref" /\
    nodes st !! v = Some vn /\ Kind_ vn = ScalarNode /\
    refTarget st idx v x.

(** [valueUnder st key l]: the value of the last of the pairs [l] whose key
    reads [key]; the pairs count up to the first key that is not a node. *)
Fixpoint valueUnder (st : St) (key : string) (l : list ptr) : option ptr :=
  match l with
  | k :: v :: l' =>
      match nodes st !! k with
      | Some kn =>
          match valueUnder st key l' with
          | Some w => Some w
          | None => if decide (Value kn = key) then Some v else None
          end
      | None => None
      end
  | _ => None
  end.

(** What the mapping node [n] pins for itself, read off the tree: the value
    under its key [discriminator] is a node, and [x] is a target of that
    discriminator's mapping, or of a [$ref] in the sequence under the node's
    key [oneOf], or of a [$ref] in the sequence under its key [anyOf]. *)
Definition nodePins `{IndexLookups} (st : St) (idx : SpecIndex) (n : YamlNode)
    (x : string) : Prop :=
  Kind_ n = MappingNode /\
  let l := elems st (Content n) in
  exists d dn,
    valueUnder st "discriminator" l = Some d /\ nodes st !! d = Some dn /\
    (mappingTarget st idx dn x \/ unionTarget st idx (valueUnder st "oneOf" l) x \/
     unionTarget st idx (valueUnder st "anyOf" l) x).

(** ** Node trees, and the discriminators the walk cannot get through *)

(** [wellFormed st height p]: below [p] lies a tree of nodes of height at
    most [height] in which every child pointer is a node, and every mapping
    node has an even number of children, its (key, value) pairs. *)
Fixpoint wellFormed (st : St) (height : nat) (p : ptr) : bool :=
  match height with
  | O => false
  | S h =>
      match nodes st !! p with
      | None => false
      | Some n =>
          forallb (wellFormed st h) (elems st (Content n)) &&
          match Kind_ n with
          | MappingNode => Nat.even (List.length (elems st (Content n)))
          | _ => true
          end
      end
  end.

(** Whether one of the pairs [l] has a key that reads [mapping] over a
    node with an odd number of children. *)
Fixpoint oddMappingIn (st : St) (l : list ptr) : bool :=
  match l with
  | k :: mn :: l' =>
      match nodes st !! k, nodes st !! mn with
      | Some kn, Some mnn =>
          bool_decide (Value kn = "mapping") &&
          Nat.odd (List.length (elems st (Content mnn)))
      | _, _ => false
      end || oddMappingIn st l'
  | _ => false
  end.

(** Whether the value under the key [discriminator] of the mapping node [n]
    is a mapping node with such a pair, as in
    [{discriminator: {mapping: [x]}}]. *)
Definition oddDiscriminator (st : St) (n : YamlNode) : bool :=
  match Kind_ n with
  | MappingNode =>
      match valueUnder st "discriminator" (elems st (Content n)) with
      | Some d =>
          match nodes st !! d with
          | Some dn =>
              match Kind_ dn with
              | MappingNode => oddMappingIn st (elems st (Content dn))
              | _ => false
              end
          | None => false
          end
      | None => false
      end
  | _ => false
  end.

(** Whether [P] holds of every node the walk from [p] lands on, the tree
    below [p] being of height at most [height]. *)
Fixpoint visitedAll (st : St) (P : YamlNode -> bool) (height : nat) (p : ptr) : bool :=
  match height with
  | O => false
  | S h =>
      match unwrapDocument st p with
      | Ok n => P n && forallb (visitedAll st P h) (walkedChildren st n)
      | Panic _ => true
      end
  end.

(** Every local that is set satisfies [P]. *)
Definition localsIn (P : ptr -> Prop) (lc : Locals) : Prop :=
  (forall d, discriminator lc = Some d -> P d) /\
  (forall s, oneOf lc = Some s -> P s) /\
  (forall s, anyOf lc = Some s -> P s).

(** A loop of the walk is additive when it only adds to [pinned], and what
    it adds, and whether it panics, does not depend on what [pinned] held. *)
Definition additive (f : gset string -> res (gset string)) : Prop :=
  forall pinned, f pinned = res_map (fun r => r ∪ pinned) (f ∅).

(** ** Relations between the heap before and the heap after *)

(** The node at [p] is the same; the backing arrays and configurations are
    the same; the whole node store is the same; the log has only grown. *)
Definition same_node (p : ptr) (st st' : St) : Prop := nodes st' !! p = nodes st !! p.
Definition same_arrays (st st' : St) : Prop :=
  arrays st' = arrays st /\ configs st' = configs st.
Definition same_nodes (st st' : St) : Prop := nodes st' = nodes st.
Definition logs_grow (st st' : St) : Prop := logs st `prefix_of` logs st'.

(** Whether the log holds a [Warn] call whose ["ref"] is [ref]. *)
Definition warned (ref : string) (st : St) : bool :=
  existsb (fun r => match lg_level r with
                    | LevelWarn => bool_decide (lg_ref r = ref)
                    | LevelDebug => false
                    end)
          (logs st).

(** When one iteration of [compact] leaves the node at [p] as it was: the
    reference is located elsewhere, or it is preserved, or its mapped
    reference is circular. *)
Definition leaves (preserveRefs : gset string) (i : SpecIndex) (p : ptr)
    (sequenced : Reference) : Prop :=
  Node sequenced = p ->
  FullDefinition sequenced ∈ preserveRefs \/
  (exists m, allMappedRefs i !! FullDefinition sequenced = Some m /\ Circular m = true).

(** ** What the renderer is given of a document *)





(** Pairs whose keys are nodes, none of which reads [mapping]. *)
Fixpoint plainPairs (st : St) (l : list ptr) : bool :=
  match l with
  | [] => true
  | k :: _ :: l' =>
      match nodes st !! k with
      | Some kn => negb (bool_decide (Value kn = "mapping")) && plainPairs st l'
      | None => false
      end
  | [_] => false
  end.

(** ** The iterations of the two passes of bundle *)

(** Every iteration of [compact] that [bundle] runs, in order: the
    references of each index with [root = false], then those of the root
    index with [root = true]. *)
Definition passSteps (rootIdx : SpecIndex) (ixs : list SpecIndex)
  : list (SpecIndex * bool * Reference) :=
  flat_map (fun i => map (fun r => (i, false, r)) (rawSequencedRefs i)) ixs
  ++ map (fun r => (rootIdx, true, r)) (rawSequencedRefs rootIdx).

(** The node whose [Content] an iteration assigns to the site, if it reaches
    the assignment: the iteration is not skipped as a local root reference,
    the reference is not preserved, and its mapped reference is there and
    not circular. *)
Definition inlineTarget `{IndexLookups} (preserveRefs : gset string) (ixs : list SpecIndex)
    (i : SpecIndex) (root : bool) (r : Reference) : option ptr :=
  match skipsLocalRoot root r with
  | Ok false =>
      if decide (FullDefinition r ∈ preserveRefs) then None
      else match mappedReferenceOf ixs i root r with
           | Some m => if Circular m then None else Some (Node m)
           | None => None
           end
  | _ => None
  end.

(** The three messages the inline bundler logs. *)
Definition bundlerRecord (r : LogRecord) : Prop :=
  (lg_level r = LevelDebug /\ lg_msg r = "[bundler] skipping local root reference") \/
  (lg_level r = LevelDebug /\
   lg_msg r = "[bundler] skipping union type (oneOf/anyOf) with discriminator mapping") \/
  (lg_level r = LevelWarn /\ lg_msg r = "[bundler] skipping circular reference").

(** Heap relations of the inline bundler: nodes are neither made nor lost
    and keep their kind and value; every [Content] is one that was there
    before; the log grows by bundler records only. *)
Definition same_shape (st st' : St) : Prop :=
  forall p, match nodes st !! p, nodes st' !! p with
            | Some n, Some n' => Kind_ n' = Kind_ n /\ Value n' = Value n
            | None, None => True
            | _, _ => False
            end.

Definition old_slices (st st' : St) : Prop :=
  forall p n', nodes st' !! p = Some n' ->
               exists q n, nodes st !! q = Some n /\ Content n' = Content n.

Definition logs_bundler (st st' : St) : Prop :=
  exists k, logs st' = logs st ++ k /\ Forall bundlerRecord k.

(** * Properties *)

(** ** How a computation relates the heap before to the heap after *)

Section Frames.
Context `{IndexLookups} `{Renderer}.

(** A relation between heaps that every step of a computation respects is
    respected by the computation. *)
Lemma bind_respects {A B} (R : St -> St -> Prop) (m : M A) (k : A -> M B) st :
  Transitive R ->
  R st (m st).1 ->
  (forall a st1, R st1 (k a st1).1) ->
  R st (bind m k st).1.
Proof.
  intros HT Hm Hk. unfold bind.
  destruct (m st) as [st1 [a|p]] eqn:E; simpl in *; [|done].
  by etrans; [apply Hm | apply Hk].
Qed.

Lemma for_each_respects {A} (R : St -> St -> Prop) (body : A -> M unit) (l : list A) :
  Reflexive R -> Transitive R ->
  (forall a st, a ∈ l -> R st (body a st).1) ->
  forall st, R st (for_each body l st).1.
Proof.
  intros HR HT. induction l as [|a l IH]; intros Hb st; simpl; [done|].
  apply bind_respects; [done | apply Hb; left |].
  intros _ st1. apply IH. intros a' st' Ha'. apply Hb. by right.
Qed.

Global Instance same_node_refl p : Reflexive (same_node p).
Proof. by intros st. Qed.
Global Instance same_node_trans p : Transitive (same_node p).
Proof. unfold same_node. intros a b c H1 H2. by rewrite H2. Qed.
Global Instance same_arrays_refl : Reflexive same_arrays.
Proof. by intros st. Qed.
Global Instance same_arrays_trans : Transitive same_arrays.
Proof. unfold same_arrays. intros a b c [H1 H1'] [H2 H2']. by rewrite H2, H2'. Qed.
Global Instance same_nodes_refl : Reflexive same_nodes.
Proof. by intros st. Qed.
Global Instance same_nodes_trans : Transitive same_nodes.
Proof. unfold same_nodes. intros a b c H1 H2. by rewrite H2. Qed.
Global Instance logs_grow_refl : Reflexive logs_grow.
Proof. intros st. unfold logs_grow. reflexivity. Qed.
Global Instance logs_grow_trans : Transitive logs_grow.
Proof. unfold logs_grow. intros a b c H1 H2. by etrans. Qed.

Lemma log_call_same_nodes lg lvl msg ref st : same_nodes st (log_call lg lvl msg ref st).1.
Proof. unfold log_call. by destruct lg. Qed.

Lemma set_Content_same_node p q s st : p <> q -> same_node p st (set_Content q s st).1.
Proof.
  intros Hne. unfold set_Content, same_node.
  destruct (nodes st !! q) eqn:E; simpl; [|done].
  by rewrite lookup_insert_ne.
Qed.

Lemma same_nodes_same_node p st st' : same_nodes st st' -> same_node p st st'.
Proof. unfold same_nodes, same_node. by intros ->. Qed.

(** The inline step writes to the node of the reference site and nowhere
    else. *)
Lemma inlineReference_elsewhere preserveRefs i sequenced mappedReference p st :
  p <> Node sequenced ->
  same_node p st (inlineReference preserveRefs i sequenced mappedReference st).1.
Proof.
  intros Hne. unfold inlineReference.
  case_decide; [apply same_nodes_same_node, log_call_same_nodes|].
  destruct mappedReference as [m|]; [|done].
  destruct (Circular m).
  - destruct (logger i); [|done]. apply same_nodes_same_node, log_call_same_nodes.
  - apply bind_respects; [apply _ | done |]. intros t st1. by apply set_Content_same_node.
Qed.

(** A preserved site, or one whose mapped reference is circular, is not
    written to. *)
Lemma inlineReference_kept preserveRefs i sequenced mappedReference st :
  FullDefinition sequenced ∈ preserveRefs \/
  (exists m, mappedReference = Some m /\ Circular m = true) ->
  same_nodes st (inlineReference preserveRefs i sequenced mappedReference st).1.
Proof.
  intros Hk. unfold inlineReference.
  case_decide as Hp; [apply log_call_same_nodes|].
  destruct Hk as [?|(m & -> & ->)]; [done|].
  destruct (logger i) eqn:E; [|done]. rewrite <-E. apply log_call_same_nodes.
Qed.

(** The root pass never replaces a circular mapped reference. *)
Lemma useCorrectIndex_circular ixs file definition m :
  Circular m = true ->
  useCorrectIndex ixs file definition (Some m) = Some m.
Proof.
  intros Hc. induction ixs as [|i ixs IH]; simpl; [done|].
  rewrite Hc, IH. by case_decide.
Qed.

Lemma mappedReferenceOf_circular ixs i root sequenced m :
  allMappedRefs i !! FullDefinition sequenced = Some m ->
  Circular m = true ->
  mappedReferenceOf ixs i root sequenced = Some m.
Proof.
  intros Hm Hc. unfold mappedReferenceOf. rewrite Hm.
  destruct (strings_Split _ _) as [|file [|frag [|? ?]]]; try done.
  destruct root; [|done]. by apply useCorrectIndex_circular.
Qed.

Lemma compactReference_same_node preserveRefs ixs i root sequenced p st :
  leaves preserveRefs i p sequenced ->
  same_node p st (compactReference preserveRefs ixs i root sequenced st).1.
Proof.
  intros Hl. unfold compactReference.
  apply bind_respects; [apply _ | done |].
  intros skip st1. destruct skip; [apply same_nodes_same_node, log_call_same_nodes|].
  destruct (decide (p = Node sequenced)) as [->|Hne];
    [|by apply inlineReference_elsewhere].
  apply same_nodes_same_node, inlineReference_kept.
  destruct (Hl eq_refl) as [?|(m & Hm & Hc)]; [by left|right].
  exists m. split; [|done]. by apply mappedReferenceOf_circular.
Qed.

Lemma compact_same_node preserveRefs ixs i root p st :
  (forall r, r ∈ rawSequencedRefs i -> leaves preserveRefs i p r) ->
  same_node p st (compact preserveRefs ixs i root st).1.
Proof.
  intros Hl. unfold compact. apply for_each_respects; [apply _ ..|].
  intros r st1 Hr. by apply compactReference_same_node, Hl.
Qed.

(** The bundler never touches a backing array or a configuration. *)
Lemma compactReference_same_arrays preserveRefs ixs i root sequenced st :
  same_arrays st (compactReference preserveRefs ixs i root sequenced st).1.
Proof.
  unfold compactReference. apply bind_respects; [apply _ | done |].
  intros skip st1. destruct skip; [unfold log_call; by destruct (logger i)|].
  unfold inlineReference. case_decide; [unfold log_call; by destruct (logger i)|].
  destruct (mappedReferenceOf _ _ _ _) as [m|]; [|done].
  destruct (Circular m).
  - destruct (logger i) eqn:E; [|done]. rewrite <-E. unfold log_call. by destruct (logger i).
  - apply bind_respects; [apply _ | done |]. intros t st2.
    unfold set_Content. by destruct (nodes st2 !! _).
Qed.

Lemma compact_same_arrays preserveRefs ixs i root st :
  same_arrays st (compact preserveRefs ixs i root st).1.
Proof.
  unfold compact. apply for_each_respects; [apply _ ..|].
  intros r st1 _. apply compactReference_same_arrays.
Qed.

(** The two passes of [bundle] under one relation. *)
Lemma bundle_respects (R : St -> St -> Prop) depth model rolodex rootIdx st :
  Reflexive R -> Transitive R ->
  Rolodex_ model = Some rolodex ->
  rootIndex rolodex = Some rootIdx ->
  (forall preserveRefs i st1,
      collectPreserveRefs depth rootIdx (indexes rolodex) st = Ok preserveRefs ->
      i ∈ indexes rolodex ->
      R st1 (compact preserveRefs (indexes rolodex) i false st1).1) ->
  (forall preserveRefs st1,
      collectPreserveRefs depth rootIdx (indexes rolodex) st = Ok preserveRefs ->
      R st1 (compact preserveRefs (indexes rolodex) rootIdx true st1).1) ->
  R st (bundle depth (Some model) st).1.
Proof.
  intros HR HT Hro Hri Hix Hroot. unfold bundle. rewrite Hro, Hri.
  unfold bind at 1, lift at 1.
  destruct (collectPreserveRefs _ _ _ st) as [preserveRefs|e] eqn:E; simpl; [|done].
  apply bind_respects; [done | |].
  - apply for_each_respects; [done..|]. intros i st1 Hi. by apply Hix.
  - intros _ st1. apply bind_respects; [done | by apply Hroot |]. by intros _ st2.
Qed.

End Frames.

(** ** Preserved and circular reference sites *)

Section Kept.
Context `{IndexLookups} `{Renderer}.

(** A node at which every recorded reference is preserved or circular (in
    particular a node no reference is located at) comes out of [bundle] as
    it went in. *)
Lemma bundle_same_node depth model rolodex rootIdx p st :
  Rolodex_ model = Some rolodex ->
  rootIndex rolodex = Some rootIdx ->
  (forall preserveRefs i r,
      collectPreserveRefs depth rootIdx (indexes rolodex) st = Ok preserveRefs ->
      i ∈ rootIdx :: indexes rolodex ->
      r ∈ rawSequencedRefs i ->
      leaves preserveRefs i p r) ->
  same_node p st (bundle depth (Some model) st).1.
Proof.
  intros Hro Hri Hl.
  apply (bundle_respects (same_node p) depth model rolodex rootIdx);
    [apply _ .. | done | done | |].
  - intros preserveRefs i st1 Hc Hi. apply compact_same_node.
    intros r Hr. apply (Hl preserveRefs i r); [done | by right | done].
  - intros preserveRefs st1 Hc. apply compact_same_node.
    intros r Hr. apply (Hl preserveRefs rootIdx r); [done | by left | done].
Qed.

Lemma bundle_same_arrays depth model st :
  same_arrays st (bundle depth model st).1.
Proof.
  destruct model as [model|]; [|done].
  destruct (Rolodex_ model) as [rolodex|] eqn:Hro; [|by unfold bundle; rewrite Hro].
  destruct (rootIndex rolodex) as [rootIdx|] eqn:Hri;
    [|by unfold bundle; rewrite Hro, Hri].
  apply (bundle_respects same_arrays depth model rolodex rootIdx);
    [apply _ .. | done | done | |]; intros; apply compact_same_arrays.
Qed.




End Kept.




(** ** Warnings for circular references *)

Section Warnings.
Context `{IndexLookups} `{Renderer}.

Lemma bind_ok_inv {A B} (m : M A) (k : A -> M B) st b :
  (bind m k st).2 = Ok b ->
  exists a, (m st).2 = Ok a /\ bind m k st = k a (m st).1.
Proof.
  unfold bind. destruct (m st) as [st1 [a|p]]; simpl; [|done].
  intros _. by exists a.
Qed.

(** In a loop that ran to its end every iteration ran to its end, between
    a heap the loop had reached and a heap the loop went on from. *)
Lemma for_each_reaches {A} (R : St -> St -> Prop) (body : A -> M unit) (l : list A) :
  Reflexive R -> Transitive R ->
  (forall a st, R st (body a st).1) ->
  forall st a, a ∈ l ->
  (for_each body l st).2 = Ok tt ->
  exists s1, R st s1 /\ (body a s1).2 = Ok tt /\ R (body a s1).1 (for_each body l st).1.
Proof.
  intros HR HT Hb. induction l as [|x l IH]; intros st a Ha Hok.
  - by apply elem_of_nil in Ha.
  - simpl in Hok. apply bind_ok_inv in Hok as Hinv. destruct Hinv as ([] & Hx & Heq).
    simpl. rewrite Heq. rewrite Heq in Hok.
    apply elem_of_cons in Ha as [->|Ha].
    + exists st. split; [done|]. split; [done|].
      apply for_each_respects; [done..|]. intros; apply Hb.
    + destruct (IH (body x st).1 a Ha Hok) as (s1 & H1 & H2 & H3).
      exists s1. split; [|done]. etrans; [apply Hb | apply H1].
Qed.

Lemma log_call_logs_grow lg lvl msg ref st : logs_grow st (log_call lg lvl msg ref st).1.
Proof. unfold log_call, logs_grow. destruct lg; simpl; [by apply prefix_app_r|done]. Qed.

Lemma compactReference_logs_grow preserveRefs ixs i root sequenced st :
  logs_grow st (compactReference preserveRefs ixs i root sequenced st).1.
Proof.
  unfold compactReference. apply bind_respects; [apply _ | done |].
  intros skip st1. destruct skip; [apply log_call_logs_grow|].
  unfold inlineReference. case_decide; [apply log_call_logs_grow|].
  destruct (mappedReferenceOf _ _ _ _) as [m|]; [|done].
  destruct (Circular m).
  - destruct (logger i) eqn:E; [|done]. rewrite <-E. apply log_call_logs_grow.
  - apply bind_respects; [apply _ | done |]. intros t st2.
    unfold set_Content, logs_grow. by destruct (nodes st2 !! _).
Qed.

Lemma compact_logs_grow preserveRefs ixs i root st :
  logs_grow st (compact preserveRefs ixs i root st).1.
Proof.
  unfold compact. apply for_each_respects; [apply _ ..|].
  intros r st1 _. apply compactReference_logs_grow.
Qed.

(** The iteration on a circular reference that is neither skipped as a
    local root reference nor preserved: with a logger it makes one [Warn]
    call naming the full definition, and changes nothing else. *)
Lemma compactReference_warns preserveRefs ixs i root sequenced m l st :
  allMappedRefs i !! FullDefinition sequenced = Some m ->
  Circular m = true ->
  FullDefinition sequenced ∉ preserveRefs ->
  skipsLocalRoot root sequenced = Ok false ->
  logger i = Some l ->
  compactReference preserveRefs ixs i root sequenced st
  = (mkSt (nodes st) (arrays st) (configs st)
          (logs st ++ [mkLog l LevelWarn "[bundler] skipping circular reference"
                             (FullDefinition sequenced)]),
     Ok tt).
Proof.
  intros Hm Hc Hp Hs Hl. unfold compactReference, bind, lift. rewrite Hs.
  rewrite (mappedReferenceOf_circular ixs i root sequenced m Hm Hc).
  unfold inlineReference. rewrite decide_False by done.
  by rewrite Hc, Hl.
Qed.

(** Without a logger the same iteration does nothing at all. *)
Lemma compactReference_silent preserveRefs ixs i root sequenced m st :
  allMappedRefs i !! FullDefinition sequenced = Some m ->
  Circular m = true ->
  FullDefinition sequenced ∉ preserveRefs ->
  skipsLocalRoot root sequenced = Ok false ->
  logger i = None ->
  compactReference preserveRefs ixs i root sequenced st = (st, Ok tt).
Proof.
  intros Hm Hc Hp Hs Hl. unfold compactReference, bind, lift. rewrite Hs.
  rewrite (mappedReferenceOf_circular ixs i root sequenced m Hm Hc).
  unfold inlineReference. rewrite decide_False by done.
  by rewrite Hc, Hl.
Qed.

Lemma compactReference_ok_skips preserveRefs ixs i root sequenced st :
  (compactReference preserveRefs ixs i root sequenced st).2 = Ok tt ->
  exists b, skipsLocalRoot root sequenced = Ok b.
Proof.
  unfold compactReference, bind, lift.
  destruct (skipsLocalRoot root sequenced) as [b|e]; [by exists b|done].
Qed.

(** A run of [compact] that ends normally has logged the warning of every
    circular reference of the index that qualifies. *)
Lemma compact_warns preserveRefs ixs i root r m l st :
  (compact preserveRefs ixs i root st).2 = Ok tt ->
  r ∈ rawSequencedRefs i ->
  allMappedRefs i !! FullDefinition r = Some m ->
  Circular m = true ->
  FullDefinition r ∉ preserveRefs ->
  skipsLocalRoot root r <> Ok true ->
  logger i = Some l ->
  mkLog l LevelWarn "[bundler] skipping circular reference" (FullDefinition r)
    ∈ logs (compact preserveRefs ixs i root st).1.
Proof.
  intros Hok Hr Hm Hc Hp Hs Hl. unfold compact in *.
  destruct (for_each_reaches logs_grow
              (compactReference preserveRefs ixs i root) (rawSequencedRefs i)
              _ _ (compactReference_logs_grow preserveRefs ixs i root) st r Hr Hok)
    as (s1 & _ & Hrun & Hgrow).
  destruct (compactReference_ok_skips _ _ _ _ _ _ Hrun) as [b Hb].
  destruct b; [done|].
  rewrite (compactReference_warns preserveRefs ixs i root r m l s1) in Hgrow by done.
  destruct Hgrow as [k ->]. simpl. set_solver.
Qed.

End Warnings.

(** C3, as the code has it. A reference site whose mapped reference is marked
    circular keeps its [$ref]: a node at which every recorded reference has
    a circular mapped reference comes out of [bundle] as it went in. The
    warning is conditional: when [bundle] runs to its end, the log holds a
    [Warn] call naming the full definition of every circular reference that
    is not in the preserve set and not skipped as a local root reference in
    the root pass, provided its index has a logger. *)
Theorem bundle_circular_sites `{IndexLookups} `{Renderer}
    (depth : nat) (model : Document) (rolodex : Rolodex) (rootIdx : SpecIndex)
    (preserveRefs : gset string) (st : St) :
  Rolodex_ model = Some rolodex ->
  rootIndex rolodex = Some rootIdx ->
  collectPreserveRefs depth rootIdx (indexes rolodex) st = Ok preserveRefs ->
  let run := bundle depth (Some model) st in
  (forall p,
      (forall i r, i ∈ rootIdx :: indexes rolodex -> r ∈ rawSequencedRefs i -> Node r = p ->
                   exists m, allMappedRefs i !! FullDefinition r = Some m /\ Circular m = true) ->
      nodes run.1 !! p = nodes st !! p) /\
  (forall out i root r m l,
      run.2 = Ok out ->
      (root = false /\ i ∈ indexes rolodex) \/ (root = true /\ i = rootIdx) ->
      r ∈ rawSequencedRefs i ->
      allMappedRefs i !! FullDefinition r = Some m ->
      Circular m = true ->
      FullDefinition r ∉ preserveRefs ->
      skipsLocalRoot root r <> Ok true ->
      logger i = Some l ->
      mkLog l LevelWarn "[bundler] skipping circular reference" (FullDefinition r)
        ∈ logs run.1).
Proof.
  intros Hro Hri Hc run. split.
  - intros p Hp. apply (bundle_same_node depth model rolodex rootIdx); [done..|].
    intros pres i r _ Hi Hr Hn. right. by apply (Hp i r).
  - intros out i root r m l Hok Hpass Hr Hm Hcirc Hnp Hskip Hl.
    subst run. unfold bundle in *. rewrite Hro, Hri in *.
    unfold bind at 1, lift at 1. unfold bind at 1, lift at 1 in Hok. rewrite Hc in *.
    set (F := fun i0 => compact preserveRefs (indexes rolodex) i0 false) in *.
    apply bind_ok_inv in Hok as Hinv. destruct Hinv as ([] & Hloop & Heq). rewrite Heq in *.
    apply bind_ok_inv in Hok as Hinv. destruct Hinv as ([] & Hroot & Heq'). rewrite Heq' in *.
    simpl. clear Heq Heq' Hok.
    set (st1 := (for_each F (indexes rolodex) st).1) in *.
    destruct Hpass as [[-> Hi]|[-> ->]].
    + destruct (for_each_reaches logs_grow F (indexes rolodex) _ _
                  (fun a s => compact_logs_grow preserveRefs (indexes rolodex) a false s)
                  st i Hi Hloop) as (s1 & _ & Hrun & Hgrow).
      pose proof (compact_warns preserveRefs (indexes rolodex) i false r m l s1
                    Hrun Hr Hm Hcirc Hnp Hskip Hl) as Hin.
      fold (F i) in Hin, Hgrow. fold st1 in Hgrow.
      pose proof (compact_logs_grow preserveRefs (indexes rolodex) rootIdx true st1) as Hg2.
      destruct Hgrow as [k1 Hk1]. destruct Hg2 as [k2 Hk2].
      rewrite Hk2, Hk1. set_solver.
    + by apply (compact_warns preserveRefs (indexes rolodex) rootIdx true r m l st1).
Qed.

(** C3 on the two-file document: the self reference of [Tree] inside
    [ext.yaml] (node 39) is circular; it keeps its [$ref] and is warned
    about. *)
Lemma bundle_circular_sites_witness :
  let run := bundle (H:=Demo.demo_lookups) (H0:=Demo.demo_renderer) 10
               (Some Demo.demo_model) Demo.demo_st in
  nodes run.1 !! 39 = Some (Demo.mapping 39 2) /\
  mkLog 7 LevelWarn "[bundler] skipping circular reference"
        (FullDefinition Demo.site_self) ∈ logs run.1.
Proof.
  cbv zeta.
  pose proof (bundle_circular_sites (H:=Demo.demo_lookups) (H0:=Demo.demo_renderer)
                10 Demo.demo_model Demo.demo_rolodex Demo.main_index
                {[ Demo.ext_path +:+ Demo.def_Cat ]} Demo.demo_st
                eq_refl eq_refl) as Hthm.
  destruct Hthm as [Hkeep Hwarn]; [vm_compute; reflexivity|].
  cbv zeta in Hkeep, Hwarn. split.
  - transitivity (nodes Demo.demo_st !! 39); [apply (Hkeep 39)|vm_compute; reflexivity].
    intros i r Hi Hr Hn.
    apply elem_of_cons in Hi as [->|Hi].
    + simpl in Hr. repeat (apply elem_of_cons in Hr as [->|Hr]); try discriminate Hn.
      by apply elem_of_nil in Hr.
    + apply list_elem_of_singleton in Hi as ->.
      simpl in Hr. apply list_elem_of_singleton in Hr as ->.
      exists Demo.comp_Tree_circular. split; [vm_compute|]; reflexivity.
  - apply (Hwarn (Some "rendered", None) Demo.ext_index false Demo.site_self
                 Demo.comp_Tree_circular 7).
    + vm_compute. reflexivity.
    + left. split; [reflexivity|]. apply list_elem_of_singleton. reflexivity.
    + apply list_elem_of_singleton. reflexivity.
    + vm_compute. reflexivity.
    + reflexivity.
    + intros Hin. apply elem_of_singleton in Hin. discriminate Hin.
    + vm_compute. discriminate.
    + reflexivity.
Defined.

(** C3 as stated fails on the warning. In each of three runs that end
    normally a reference has a circular mapped reference and no [Warn] call
    names it: a cycle inside the root file is skipped as a local root
    reference; an index without a logger logs nothing; a preserved reference
    is reported at [Debug] level as a pinned union branch. *)
Lemma bundle_circular_sites_counterexample :
  let run model := bundle (H:=Demo.demo_lookups) (H0:=Demo.demo_renderer) 10
                     (Some model) Demo.demo_st in
  ((run Demo.local_cycle_model).2 = Ok (Some "rendered", None) /\
   Demo.site_a ∈ [Demo.site_a; Demo.site_b; Demo.site_cat] /\
   Circular Demo.comp_A_circular = true /\
   warned (FullDefinition Demo.site_a) (run Demo.local_cycle_model).1 = false) /\
  ((run Demo.quiet_model).2 = Ok (Some "rendered", None) /\
   allMappedRefs Demo.quiet_ext_index !! FullDefinition Demo.site_self
     = Some Demo.comp_Tree_circular /\
   warned (FullDefinition Demo.site_self) (run Demo.quiet_model).1 = false) /\
  ((run Demo.pinned_cycle_model).2 = Ok (Some "rendered", None) /\
   allMappedRefs Demo.pinned_cycle_index !! FullDefinition Demo.site_cat
     = Some Demo.comp_Cat_circular /\
   warned (FullDefinition Demo.site_cat) (run Demo.pinned_cycle_model).1 = false).
Proof.
  repeat split; try (vm_compute; reflexivity).
  apply list_elem_of_here.
Qed.

(** ** The inline step *)

(** C2, as the code has it. An iteration of [compact] on a reference that is
    not skipped as a local root reference and not preserved, whose mapped
    reference (re-resolved in the root pass) exists and is not circular,
    assigns the target's [Content] slice to the site's node: afterwards the
    site and the target hold the same slice header, hence the same backing
    array, and the site shows the target's children in the target's order.
    Nothing else changes: not the site's kind or value, not another node,
    not an array, not the log. *)
Theorem compactReference_inlines `{IndexLookups}
    (preserveRefs : gset string) (ixs : list SpecIndex) (i : SpecIndex) (root : bool)
    (sequenced m : Reference) (site target : YamlNode) (st : St) :
  skipsLocalRoot root sequenced = Ok false ->
  FullDefinition sequenced ∉ preserveRefs ->
  mappedReferenceOf ixs i root sequenced = Some m ->
  Circular m = false ->
  nodes st !! Node sequenced = Some site ->
  nodes st !! Node m = Some target ->
  let run := compactReference preserveRefs ixs i root sequenced st in
  run = (mkSt (<[Node sequenced := mkNode (Kind_ site) (Value site) (Content target)]>
                 (nodes st))
              (arrays st) (configs st) (logs st),
         Ok tt) /\
  (exists site' target',
      nodes run.1 !! Node sequenced = Some site' /\
      nodes run.1 !! Node m = Some target' /\
      Content site' = Content target /\
      Content target' = Content target /\
      s_arr (Content site') = s_arr (Content target') /\
      elems run.1 (Content site') = elems st (Content target)).
Proof.
  intros Hs Hp Hm Hc Hsite Htarget run.
  assert (Hrun : run = (mkSt (<[Node sequenced := mkNode (Kind_ site) (Value site)
                                                     (Content target)]> (nodes st))
                             (arrays st) (configs st) (logs st), Ok tt)).
  { subst run. unfold compactReference, bind, lift. rewrite Hs, Hm.
    unfold inlineReference. rewrite decide_False by done. rewrite Hc.
    unfold bind, lift, deref. rewrite Htarget. unfold set_Content. by rewrite Hsite. }
  split; [done|]. rewrite Hrun. simpl.
  exists (mkNode (Kind_ site) (Value site) (Content target)).
  destruct (decide (Node m = Node sequenced)) as [Heq|Hne].
  - exists (mkNode (Kind_ site) (Value site) (Content target)).
    rewrite Heq, lookup_insert_eq. by repeat split.
  - exists target. rewrite lookup_insert_eq, lookup_insert_ne by done. by repeat split.
Qed.

(** C2 on the two-file document: in the root pass the reference to [Tree]
    of [ext.yaml] (node 6) receives the slice of [Tree] (node 33). *)
Lemma compactReference_inlines_witness :
  (compactReference (H:=Demo.demo_lookups) {[ Demo.ext_path +:+ Demo.def_Cat ]}
     [Demo.ext_index] Demo.main_index true Demo.site_b Demo.demo_st).2 = Ok tt.
Proof.
  pose proof (compactReference_inlines (H:=Demo.demo_lookups)
                {[ Demo.ext_path +:+ Demo.def_Cat ]} [Demo.ext_index] Demo.main_index true
                Demo.site_b Demo.comp_Tree (Demo.mapping 6 2) (Demo.mapping 33 4)
                Demo.demo_st) as Hthm.
  cbv zeta in Hthm. destruct Hthm as [Hrun _].
  - vm_compute. reflexivity.
  - intros Hin. apply elem_of_singleton in Hin. discriminate Hin.
  - vm_compute. reflexivity.
  - reflexivity.
  - vm_compute. reflexivity.
  - vm_compute. reflexivity.
  - rewrite Hrun. reflexivity.
Defined.

(** C2 as stated fails twice on the two-file document. The reference to [A]
    (node 4) is not preserved and its mapped reference exists and is not
    circular, yet the root pass skips it as a local root reference: after
    [bundle] it still shows its own children, not those of [A] (node 8).
    And the reference to [Tree] (node 6), which is inlined, does not hold a
    copy of the target's child list: its slice is the slice of [Tree]
    (node 33), over the same backing array. *)
Lemma compactReference_inlines_counterexample :
  let st' := (bundle (H:=Demo.demo_lookups) (H0:=Demo.demo_renderer) 10
                (Some Demo.demo_model) Demo.demo_st).1 in
  collectPreserveRefs (H:=Demo.demo_lookups) 10 Demo.main_index [Demo.ext_index]
    Demo.demo_st = Ok {[ Demo.ext_path +:+ Demo.def_Cat ]} /\
  (FullDefinition Demo.site_a <> Demo.ext_path +:+ Demo.def_Cat /\
   mappedReferenceOf (H:=Demo.demo_lookups) [Demo.ext_index] Demo.main_index true Demo.site_a
     = Some Demo.comp_A /\
   Circular Demo.comp_A = false /\
   nodes st' !! 4 = Some (Demo.mapping 4 2) /\
   elems st' (Content (Demo.mapping 4 2)) = [11; 12] /\
   option_map (fun n => elems st' (Content n)) (nodes st' !! 8) = Some [15; 16]) /\
  (FullDefinition Demo.site_b <> Demo.ext_path +:+ Demo.def_Cat /\
   option_map Content (nodes st' !! 6) = Some (mkSlice 33 0 4) /\
   option_map Content (nodes st' !! 33) = Some (mkSlice 33 0 4)).
Proof.
  repeat split; try (vm_compute; reflexivity); discriminate.
Qed.

(** ** The discriminator walk *)

Lemma pairs_ind {A} (P : list A -> Prop) :
  P [] -> (forall x, P [x]) -> (forall x y l, P l -> P (x :: y :: l)) ->
  forall l, P l.
Proof.
  intros H0 H1 H2.
  assert (forall l, P l /\ forall x, P (x :: l)) as Hall.
  { induction l as [|y l [IH1 IH2]]; split; auto. }
  intros l. apply Hall.
Qed.

Section WalkFacts.
Context `{IndexLookups}.
Variable st : St.
Variable idx : SpecIndex.

Lemma res_map_compose {A B C} (f : B -> C) (g : A -> B) (r : res A) :
  res_map f (res_map g r) = res_map (fun a => f (g a)) r.
Proof. by destruct r. Qed.

Lemma res_map_ext {A B} (f g : A -> B) (r : res A) :
  (forall a, f a = g a) -> res_map f r = res_map g r.
Proof. intros E. destruct r; simpl; by rewrite ?E. Qed.

Lemma res_map_id {A} (f : A -> A) (r : res A) :
  (forall a, f a = a) -> res_map f r = r.
Proof. intros E. destruct r; simpl; by rewrite ?E. Qed.

Lemma pin_union v (pinned : gset string) : pin idx v pinned = pin idx v ∅ ∪ pinned.
Proof. unfold pin. destruct (SearchIndexForReference idx v) as [[ref ri]|]; set_solver. Qed.

Lemma additive_ok : additive Ok.
Proof. intros pinned. simpl. f_equal. set_solver. Qed.

Lemma additive_pin_then v f : additive f -> additive (fun pinned => f (pin idx v pinned)).
Proof.
  intros Hf pinned. rewrite (Hf (pin idx v pinned)), (Hf (pin idx v ∅)).
  rewrite res_map_compose. apply res_map_ext. intros a.
  rewrite (pin_union v pinned). set_solver.
Qed.

Lemma additive_bind f g :
  additive f -> additive g -> additive (fun pinned => res_bind (f pinned) g).
Proof.
  intros Hf Hg pinned. rewrite (Hf pinned).
  destruct (f ∅) as [a|e]; simpl; [|done].
  rewrite (Hg (a ∪ pinned)), (Hg a), res_map_compose.
  apply res_map_ext. intros b. set_solver.
Qed.

Lemma additive_deref p (k : YamlNode -> gset string -> res (gset string)) :
  (forall n, additive (k n)) ->
  additive (fun pinned => res_bind (deref st p) (fun n => k n pinned)).
Proof.
  intros Hk pinned. destruct (deref st p) as [n|e]; simpl; [apply Hk|done].
Qed.

Lemma additive_fold {A} (f : gset string -> A -> res (gset string)) (l : list A) :
  (forall a, additive (fun pinned => f pinned a)) ->
  additive (res_fold f l).
Proof.
  intros Hf. induction l as [|a l IH]; simpl; [apply additive_ok|].
  apply (additive_bind (fun pinned => f pinned a) (res_fold f l)); auto.
Qed.

Lemma walkMappingEntries_additive l : additive (walkMappingEntries st idx l).
Proof.
  induction l as [| x | k v l IH] using pairs_ind; simpl.
  - apply additive_ok.
  - by intros pinned.
  - apply additive_deref. intros vn. by apply additive_pin_then.
Qed.

Lemma walkDiscriminatorEntries_additive l : additive (walkDiscriminatorEntries st idx l).
Proof.
  induction l as [| x | k v l IH] using pairs_ind; simpl.
  - apply additive_ok.
  - apply additive_deref. intros kn. case_decide; [by intros pinned|apply additive_ok].
  - apply additive_deref. intros kn. case_decide; [|done].
    apply additive_deref. intros mn.
    apply (additive_bind (walkMappingEntries st idx (elems st (Content mn)))
                         (walkDiscriminatorEntries st idx l));
      [apply walkMappingEntries_additive | done].
Qed.

Lemma walkDiscriminatorMapping_additive d : additive (walkDiscriminatorMapping st idx d).
Proof.
  unfold walkDiscriminatorMapping.
  case_decide; [apply walkDiscriminatorEntries_additive | apply additive_ok].
Qed.

Lemma walkItemEntries_additive l : additive (walkItemEntries st idx l).
Proof.
  induction l as [| x | k v l IH] using pairs_ind; simpl.
  - apply additive_ok.
  - by intros pinned.
  - apply additive_deref. intros kn. case_decide; [|done].
    apply additive_deref. intros vn. case_decide; [|done].
    by apply additive_pin_then.
Qed.

Lemma walkUnionRefs_additive seq : additive (walkUnionRefs st idx seq).
Proof.
  unfold walkUnionRefs. destruct seq as [p|]; [|apply additive_ok].
  destruct (nodes st !! p) as [sn|]; [|apply additive_ok].
  case_decide; [|apply additive_ok].
  apply additive_fold. intros item. apply additive_deref. intros itn.
  case_decide; [apply walkItemEntries_additive | apply additive_ok].
Qed.

Lemma pinNode_additive lc : additive (pinNode st idx lc).
Proof.
  unfold pinNode. destruct (discriminator lc) as [d|]; [|apply additive_ok].
  destruct (nodes st !! d) as [dn|]; [|apply additive_ok].
  apply (additive_bind (walkDiscriminatorMapping st idx dn)).
  - apply walkDiscriminatorMapping_additive.
  - apply (additive_bind (walkUnionRefs st idx (oneOf lc))); apply walkUnionRefs_additive.
Qed.

End WalkFacts.

Section WalkSpec.
Context `{IndexLookups}.
Variable st : St.
Variable idx : SpecIndex.

Local Abbreviation addedBelow := (addedBelow st idx).

Lemma res_fold_spec (rec : ptr -> gset string -> res (gset string)) (l : list ptr) :
  (forall c pinned r, c ∈ l -> rec c pinned = Ok r ->
                      forall x, x ∈ r <-> x ∈ pinned \/ addedBelow c x) ->
  forall pinned r,
    res_fold (fun pinned c => rec c pinned) l pinned = Ok r ->
    forall x, x ∈ r <-> x ∈ pinned \/ exists c, c ∈ l /\ addedBelow c x.
Proof.
  induction l as [|c l IH]; intros Hrec pinned r Hr x; simpl in Hr.
  - injection Hr as <-. set_solver.
  - destruct (rec c pinned) as [r1|e] eqn:E; simpl in Hr; [|done].
    rewrite (IH (fun c' p' r' Hc' => Hrec c' p' r' (list_elem_of_further _ _ _ Hc'))
                r1 r Hr x).
    rewrite (Hrec c pinned r1 (list_elem_of_here _ _) E x).
    set_solver.
Qed.

Lemma walkPairs_spec (rec : ptr -> gset string -> res (gset string)) (l : list ptr) :
  (forall c pinned r, c ∈ pairValues l -> rec c pinned = Ok r ->
                      forall x, x ∈ r <-> x ∈ pinned \/ addedBelow c x) ->
  forall lc pinned lc' r,
    walkPairs st rec l lc pinned = Ok (lc', r) ->
    lc' = localsOf st l lc /\
    forall x, x ∈ r <-> x ∈ pinned \/ exists c, c ∈ pairValues l /\ addedBelow c x.
Proof.
  induction l as [| k | k v l IH] using pairs_ind; intros Hrec lc pinned lc' r Hr;
    simpl in Hr.
  - injection Hr as <- <-. split; [done|]. set_solver.
  - done.
  - unfold deref in Hr. simpl. destruct (nodes st !! k) as [kn|]; simpl in Hr; [|done].
    destruct (rec v pinned) as [r1|e] eqn:E; simpl in Hr; [|done].
    destruct (IH (fun c' p' r' Hc' => Hrec c' p' r' (list_elem_of_further _ _ _ Hc'))
                 _ _ _ _ Hr) as [-> Hx].
    split; [done|]. intros x. rewrite (Hx x).
    rewrite (Hrec v pinned r1 (list_elem_of_here _ _) E x).
    set_solver.
Qed.

Lemma visits_inv p q :
  Visits st p q ->
  q = p \/ exists n c, unwrapDocument st p = Ok n /\ c ∈ walkedChildren st n /\ Visits st c q.
Proof. intros Hv. destruct Hv; [by left|right; eauto]. Qed.

(** The walk adds exactly what the mapping nodes it visits add for
    themselves. *)
Lemma collect_spec depth :
  forall p pinned r,
    collectDiscriminatorMappingValues st depth idx p pinned = Ok r ->
    forall x, x ∈ r <-> x ∈ pinned \/ addedBelow p x.
Proof.
  induction depth as [|depth IH]; intros p pinned r Hr x; simpl in Hr; [done|].
  destruct (unwrapDocument st p) as [n|e] eqn:Hn; simpl in Hr; [|done].
  assert (Hown : forall pins, ownPins st idx p pins ->
                              Kind_ n = MappingNode /\
                              pinNode st idx (localsOf st (elems st (Content n))
                                                (mkLocals None None None)) ∅ = Ok pins).
  { intros pins (n' & Hn' & Hk & Hp). rewrite Hn in Hn'. by injection Hn' as <-. }
  assert (Hbelow : (exists c, c ∈ walkedChildren st n /\ addedBelow c x) ->
                   addedBelow p x).
  { intros (c & Hc & q & pins & Hv & Ho & Hx). exists q, pins.
    split; [|done]. by apply (visits_child st p n c q). }
  assert (Hsplit : addedBelow p x ->
                   (exists pins, ownPins st idx p pins /\ x ∈ pins) \/
                   (exists c, c ∈ walkedChildren st n /\ addedBelow c x)).
  { intros (q & pins & Hv & Ho & Hx).
    destruct (visits_inv p q Hv) as [->|(n' & c & Hn' & Hc & Hv')]; [left; eauto|].
    right. rewrite Hn in Hn'. injection Hn' as <-. exists c. split; [done|].
    by exists q, pins. }
  destruct (Kind_ n) eqn:Hk.
  - injection Hr as <-. split; [by left|]. intros [?|Ha]; [done|].
    destruct (Hsplit Ha) as [(pins & Ho & _)|(c & Hc & _)].
    + by destruct (Hown pins Ho).
    + unfold walkedChildren in Hc. rewrite Hk in Hc. by apply elem_of_nil in Hc.
  - rewrite (res_fold_spec (collectDiscriminatorMappingValues st depth idx)
               (elems st (Content n)) (fun c p' r' _ => IH c p' r') pinned r Hr x).
    unfold walkedChildren in Hbelow, Hsplit. rewrite Hk in Hbelow, Hsplit.
    split; intros [?|Ha]; try (by left); [right; by apply Hbelow|].
    destruct (Hsplit Ha) as [(pins & Ho & _)|?]; [|by right].
    by destruct (Hown pins Ho).
  - destruct (walkPairs _ _ _ _ _) as [[lc r1]|e] eqn:Hw; simpl in Hr; [|done].
    destruct (walkPairs_spec (collectDiscriminatorMappingValues st depth idx)
                (elems st (Content n)) (fun c p' r' _ => IH c p' r') _ _ _ _ Hw)
      as [-> Hx1].
    rewrite (pinNode_additive st idx _ r1) in Hr.
    destruct (pinNode st idx _ ∅) as [pins|e] eqn:Hp; simpl in Hr; [|done].
    injection Hr as <-.
    unfold walkedChildren in Hbelow, Hsplit. rewrite Hk in Hbelow, Hsplit.
    rewrite elem_of_union, (Hx1 x). split.
    + intros [Hx|[?|Hc]]; [right|by left|right; by apply Hbelow].
      exists p, pins. split; [apply visits_here|]. split; [|done]. by exists n.
    + intros [?|Ha]; [by right; left|].
      destruct (Hsplit Ha) as [(pins' & Ho & Hx)|?]; [|by right; right].
      destruct (Hown pins' Ho) as [_ Hp'].
      assert (pins' = pins) as -> by congruence. by left.
  - injection Hr as <-. split; [by left|]. intros [?|Ha]; [done|].
    destruct (Hsplit Ha) as [(pins & Ho & _)|(c & Hc & _)].
    + by destruct (Hown pins Ho).
    + unfold walkedChildren in Hc. rewrite Hk in Hc. by apply elem_of_nil in Hc.
  - injection Hr as <-. split; [by left|]. intros [?|Ha]; [done|].
    destruct (Hsplit Ha) as [(pins & Ho & _)|(c & Hc & _)].
    + by destruct (Hown pins Ho).
    + unfold walkedChildren in Hc. rewrite Hk in Hc. by apply elem_of_nil in Hc.
Qed.

End WalkSpec.

Lemma PairIn_cons {A} (k v a b : A) l :
  PairIn k v (a :: b :: l) <-> (k = a /\ v = b) \/ PairIn k v l.
Proof.
  split.
  - inversion 1; subst; [by left|by right].
  - intros [[-> ->]|Hp]; [apply pair_here|by apply pair_later].
Qed.

Lemma PairIn_nil {A} (k v : A) : ~ PairIn k v [].
Proof. inversion 1. Qed.

Lemma PairIn_single {A} (k v a : A) : ~ PairIn k v [a].
Proof. inversion 1. Qed.

Section Targets.
Context `{IndexLookups}.
Variable st : St.
Variable idx : SpecIndex.

Lemma pin_elem v (pinned : gset string) x :
  x ∈ pin idx v pinned <->
  x ∈ pinned \/
  exists ref refIdx, SearchIndexForReference idx v = Some (ref, refIdx) /\
                     x = specAbsolutePath refIdx +:+ Definition_ ref.
Proof.
  unfold pin. destruct (SearchIndexForReference idx v) as [[ref ri]|].
  - rewrite elem_of_union, elem_of_singleton. split.
    + intros [->|?]; [right; by exists ref, ri|by left].
    + intros [?|(ref' & ri' & Heq & ->)]; [by right|left]. by injection Heq as <- <-.
  - split; [by left|]. by intros [?|(? & ? & ? & _)].
Qed.

Lemma pin_refTarget v vn (pinned : gset string) x :
  nodes st !! v = Some vn ->
  x ∈ pin idx (Value vn) pinned <-> x ∈ pinned \/ refTarget st idx v x.
Proof.
  intros Hv. rewrite pin_elem. unfold refTarget. split.
  - intros [?|(ref & ri & Hs & ->)]; [by left|right]. by exists vn, ref, ri.
  - intros [?|(vn' & ref & ri & Hv' & Hs & ->)]; [by left|right].
    rewrite Hv in Hv'. injection Hv' as <-. by exists ref, ri.
Qed.

Lemma walkMappingEntries_spec l :
  forall pinned r,
    walkMappingEntries st idx l pinned = Ok r ->
    forall x, x ∈ r <-> x ∈ pinned \/ exists e v, PairIn e v l /\ refTarget st idx v x.
Proof.
  induction l as [| a | k v l IH] using pairs_ind; intros pinned r Hr x; simpl in Hr.
  - injection Hr as <-. split; [by left|]. intros [?|(e & v & Hp & _)]; [done|].
    by apply PairIn_nil in Hp.
  - done.
  - unfold deref in Hr. destruct (nodes st !! v) as [vn|] eqn:Hv; simpl in Hr; [|done].
    rewrite (IH _ _ Hr x), (pin_refTarget v vn pinned x Hv). split.
    + intros [[?|Ht]|(e & v' & Hp & Ht)]; [by left|right..].
      * exists k, v. split; [apply pair_here|done].
      * exists e, v'. split; [by apply pair_later|done].
    + intros [?|(e & v' & Hp & Ht)]; [by left; left|].
      apply PairIn_cons in Hp as [[-> ->]|Hp]; [by left; right|right].
      by exists e, v'.
Qed.

Lemma walkItemEntries_spec l :
  forall pinned r,
    walkItemEntries st idx l pinned = Ok r ->
    forall x, x ∈ r <->
              x ∈ pinned \/
              exists k kn v vn,
                PairIn k v l /\ nodes st !! k = Some kn /\ Value kn = "$ref" /\
                nodes st !! v = Some vn /\ Kind_ vn = ScalarNode /\ refTarget st idx v x.
Proof.
  induction l as [| a | k v l IH] using pairs_ind; intros pinned r Hr x; simpl in Hr.
  - injection Hr as <-. split; [by left|]. intros [?|(k & kn & v & vn & Hp & _)]; [done|].
    by apply PairIn_nil in Hp.
  - done.
  - unfold deref in Hr. destruct (nodes st !! k) as [kn|] eqn:Hk; simpl in Hr; [|done].
    assert (Hlater : (exists k' kn' v' vn',
                PairIn k' v' l /\ nodes st !! k' = Some kn' /\ Value kn' = "$ref" /\
                nodes st !! v' = Some vn' /\ Kind_ vn' = ScalarNode /\
                refTarget st idx v' x) ->
            exists k' kn' v' vn',
                PairIn k' v' (k :: v :: l) /\ nodes st !! k' = Some kn' /\
                Value kn' = "$ref" /\ nodes st !! v' = Some vn' /\
                Kind_ vn' = ScalarNode /\ refTarget st idx v' x).
    { intros (k' & kn' & v' & vn' & Hp & Hrest). exists k', kn', v', vn'.
      split; [by apply pair_later|done]. }
    destruct (decide (Value kn = "$ref")) as [Href|Href].
    + destruct (nodes st !! v) as [vn|] eqn:Hv; simpl in Hr; [|done].
      destruct (decide (Kind_ vn = ScalarNode)) as [Hsc|Hsc].
      * rewrite (IH _ _ Hr x), (pin_refTarget v vn pinned x Hv). split.
        -- intros [[?|Ht]|Hl]; [by left|right..]; [|by apply Hlater].
           by exists k, kn, v, vn; split; [apply pair_here|].
        -- intros [?|(k' & kn' & v' & vn' & Hp & Hrest)]; [by left; left|].
           apply PairIn_cons in Hp as [[-> ->]|Hp].
           ++ left; right. by destruct Hrest as (_ & _ & _ & _ & Ht).
           ++ right. by exists k', kn', v', vn'.
      * rewrite (IH _ _ Hr x). split.
        -- intros [?|Hl]; [by left|right; by apply Hlater].
        -- intros [?|(k' & kn' & v' & vn' & Hp & Hrest)]; [by left|].
           apply PairIn_cons in Hp as [[-> ->]|Hp].
           ++ destruct Hrest as (_ & _ & Hv' & Hk' & _).
              rewrite Hv in Hv'. injection Hv' as <-. done.
           ++ right. by exists k', kn', v', vn'.
    + rewrite (IH _ _ Hr x). split.
      * intros [?|Hl]; [by left|right; by apply Hlater].
      * intros [?|(k' & kn' & v' & vn' & Hp & Hrest)]; [by left|].
        apply PairIn_cons in Hp as [[-> ->]|Hp].
        -- destruct Hrest as (Hk' & Hval & _).
           rewrite Hk in Hk'. injection Hk' as <-. done.
        -- right. by exists k', kn', v', vn'.
Qed.

End Targets.

Section NodeTargets.
Context `{IndexLookups}.
Variable st : St.
Variable idx : SpecIndex.

Lemma res_fold_elem {A} (f : gset string -> A -> res (gset string))
    (Q : A -> string -> Prop) (l : list A) :
  (forall a pinned r, f pinned a = Ok r -> forall x, x ∈ r <-> x ∈ pinned \/ Q a x) ->
  forall pinned r,
    res_fold f l pinned = Ok r ->
    forall x, x ∈ r <-> x ∈ pinned \/ exists a, a ∈ l /\ Q a x.
Proof.
  intros Hf. induction l as [|a l IH]; intros pinned r Hr x; simpl in Hr.
  - injection Hr as <-. set_solver.
  - destruct (f pinned a) as [r1|e] eqn:E; simpl in Hr; [|done].
    rewrite (IH r1 r Hr x), (Hf a pinned r1 E x). set_solver.
Qed.

Lemma walkDiscriminatorEntries_spec l :
  forall pinned r,
    walkDiscriminatorEntries st idx l pinned = Ok r ->
    forall x, x ∈ r <->
              x ∈ pinned \/
              exists k kn mn mnn e v,
                PairIn k mn l /\ nodes st !! k = Some kn /\ Value kn = "mapping" /\
                nodes st !! mn = Some mnn /\ PairIn e v (elems st (Content mnn)) /\
                refTarget st idx v x.
Proof.
  induction l as [| a | k mn l IH] using pairs_ind; intros pinned r Hr x; simpl in Hr.
  - injection Hr as <-. split; [by left|].
    intros [?|(k & kn & mn & mnn & e & v & Hp & _)]; [done|]. by apply PairIn_nil in Hp.
  - unfold deref in Hr. destruct (nodes st !! a) as [kn|]; simpl in Hr; [|done].
    case_decide; [done|]. injection Hr as <-. split; [by left|].
    intros [?|(k & kn' & mn & mnn & e & v & Hp & _)]; [done|].
    by apply PairIn_single in Hp.
  - unfold deref in Hr. destruct (nodes st !! k) as [kn|] eqn:Hk; simpl in Hr; [|done].
    assert (Hlater : (exists k' kn' mn' mnn' e v,
                PairIn k' mn' l /\ nodes st !! k' = Some kn' /\ Value kn' = "mapping" /\
                nodes st !! mn' = Some mnn' /\ PairIn e v (elems st (Content mnn')) /\
                refTarget st idx v x) ->
            exists k' kn' mn' mnn' e v,
                PairIn k' mn' (k :: mn :: l) /\ nodes st !! k' = Some kn' /\
                Value kn' = "mapping" /\ nodes st !! mn' = Some mnn' /\
                PairIn e v (elems st (Content mnn')) /\ refTarget st idx v x).
    { intros (k' & kn' & mn' & mnn' & e & v & Hp & Hrest).
      exists k', kn', mn', mnn', e, v. split; [by apply pair_later|done]. }
    destruct (decide (Value kn = "mapping")) as [Hm|Hm].
    + destruct (nodes st !! mn) as [mnn|] eqn:Hmn; simpl in Hr; [|done].
      destruct (walkMappingEntries st idx _ pinned) as [r1|e1] eqn:Hw; simpl in Hr;
        [|done].
      rewrite (IH _ _ Hr x), (walkMappingEntries_spec st idx _ _ _ Hw x). split.
      * intros [[?|(e & v & Hp & Ht)]|Hl]; [by left|right..]; [|by apply Hlater].
        exists k, kn, mn, mnn, e, v. split; [apply pair_here|done].
      * intros [?|(k' & kn' & mn' & mnn' & e & v & Hp & Hrest)]; [by left; left|].
        apply PairIn_cons in Hp as [[-> ->]|Hp].
        -- left; right. destruct Hrest as (_ & _ & Hmn' & Hp' & Ht).
           rewrite Hmn in Hmn'. injection Hmn' as <-. by exists e, v.
        -- right. by exists k', kn', mn', mnn', e, v.
    + rewrite (IH _ _ Hr x). split.
      * intros [?|Hl]; [by left|right; by apply Hlater].
      * intros [?|(k' & kn' & mn' & mnn' & e & v & Hp & Hrest)]; [by left|].
        apply PairIn_cons in Hp as [[-> ->]|Hp].
        -- destruct Hrest as (Hk' & Hval & _). rewrite Hk in Hk'. by injection Hk' as <-.
        -- right. by exists k', kn', mn', mnn', e, v.
Qed.

Lemma walkDiscriminatorMapping_spec dn pinned r :
  walkDiscriminatorMapping st idx dn pinned = Ok r ->
  forall x, x ∈ r <-> x ∈ pinned \/ mappingTarget st idx dn x.
Proof.
  unfold walkDiscriminatorMapping, mappingTarget. intros Hr x. case_decide as Hk.
  - rewrite (walkDiscriminatorEntries_spec _ _ _ Hr x). naive_solver.
  - injection Hr as <-. naive_solver.
Qed.

Lemma walkUnionRefs_spec seq pinned r :
  walkUnionRefs st idx seq pinned = Ok r ->
  forall x, x ∈ r <-> x ∈ pinned \/ unionTarget st idx seq x.
Proof.
  unfold walkUnionRefs, unionTarget. intros Hr x.
  destruct seq as [p|]; [|injection Hr as <-; naive_solver].
  destruct (nodes st !! p) as [sn|] eqn:Hp; [|injection Hr as <-; naive_solver].
  case_decide as Hk; [|injection Hr as <-; naive_solver].
  set (Q := fun (item : ptr) (x : string) =>
              exists itn k kn v vn,
                nodes st !! item = Some itn /\ Kind_ itn = MappingNode /\
                PairIn k v (elems st (Content itn)) /\
                nodes st !! k = Some kn /\ Value kn = "$ref" /\
                nodes st !! v = Some vn /\ Kind_ vn = ScalarNode /\
                refTarget st idx v x).
  assert (Hitem : forall item pinned r,
             res_bind (deref st item)
               (fun itn => if decide (Kind_ itn = MappingNode)
                           then walkItemEntries st idx (elems st (Content itn)) pinned
                           else Ok pinned) = Ok r ->
             forall x, x ∈ r <-> x ∈ pinned \/ Q item x).
  { clear. intros item pinned r Hr x. unfold deref in Hr. unfold Q.
    destruct (nodes st !! item) as [itn|] eqn:Hi; simpl in Hr; [|done].
    case_decide as Hk.
    - rewrite (walkItemEntries_spec st idx _ _ _ Hr x). split.
      + intros [?|(k & kn & v & vn & Hrest)]; [by left|right].
        by exists itn, k, kn, v, vn.
      + intros [?|(itn' & k & kn & v & vn & Hi' & _ & Hrest)]; [by left|right].
        injection Hi' as <-. by exists k, kn, v, vn.
    - injection Hr as <-. split; [by left|].
      intros [?|(itn' & k & kn & v & vn & Hi' & Hk' & _)]; [done|].
      by injection Hi' as <-. }
  rewrite (res_fold_elem _ Q (elems st (Content sn)) Hitem pinned r Hr x).
  unfold Q. split.
  - intros [?|(item & Hin & itn & k & kn & v & vn & Hrest)]; [by left|right].
    by exists p, sn, item, itn, k, kn, v, vn.
  - intros [?|(p' & sn' & item & itn & k & kn & v & vn & Hs & Hp' & Hk' & Hin & Hrest)];
      [by left|right].
    injection Hs as <-. rewrite Hp in Hp'. injection Hp' as <-.
    exists item. split; [done|]. by exists itn, k, kn, v, vn.
Qed.

Lemma pinNode_spec lc pinned r :
  pinNode st idx lc pinned = Ok r ->
  forall x, x ∈ r <->
            x ∈ pinned \/
            exists d dn, discriminator lc = Some d /\ nodes st !! d = Some dn /\
                         (mappingTarget st idx dn x \/ unionTarget st idx (oneOf lc) x \/
                          unionTarget st idx (anyOf lc) x).
Proof.
  unfold pinNode. intros Hr x.
  destruct (discriminator lc) as [d|]; [|injection Hr as <-; naive_solver].
  destruct (nodes st !! d) as [dn|] eqn:Hd; [|injection Hr as <-; naive_solver].
  destruct (walkDiscriminatorMapping st idx dn pinned) as [r1|e] eqn:H1; simpl in Hr;
    [|done].
  destruct (walkUnionRefs st idx (oneOf lc) r1) as [r2|e] eqn:H2; simpl in Hr; [|done].
  rewrite (walkUnionRefs_spec _ _ _ Hr x), (walkUnionRefs_spec _ _ _ H2 x),
          (walkDiscriminatorMapping_spec _ _ _ H1 x).
  split.
  - intros [[[?|?]|?]|?]; [by left|right; exists d, dn; naive_solver..].
  - intros [?|(d' & dn' & Hd' & Hdn' & Ht)]; [by left; left; left|].
    injection Hd' as <-. rewrite Hd in Hdn'. injection Hdn' as <-. naive_solver.
Qed.

(** The switch on [k.Value] assigns each local under its own key: once the
    loop over the pairs [l] is through, [discriminator], [oneOf] and [anyOf]
    hold the last value under the keys of these names, or what they held
    before the loop when no key reads so. *)
Lemma localsOf_valueUnder l :
  forall lc,
    discriminator (localsOf st l lc)
    = from_option Some (discriminator lc) (valueUnder st "discriminator" l) /\
    oneOf (localsOf st l lc) = from_option Some (oneOf lc) (valueUnder st "oneOf" l) /\
    anyOf (localsOf st l lc) = from_option Some (anyOf lc) (valueUnder st "anyOf" l).
Proof.
  induction l as [| a | k v l IH] using pairs_ind; intros lc; simpl; [done..|].
  destruct (nodes st !! k) as [kn|]; [|done].
  destruct (IH (assignLocal (Value kn) v lc)) as (-> & -> & ->).
  unfold assignLocal.
  destruct (valueUnder st "discriminator" l), (valueUnder st "oneOf" l),
    (valueUnder st "anyOf" l); simpl;
    repeat case_decide; simpl; repeat split; congruence.
Qed.

(** What a visited mapping node adds for itself, read off the tree. *)
Lemma ownPins_nodePins q pins :
  ownPins st idx q pins ->
  exists n, unwrapDocument st q = Ok n /\ forall x, x ∈ pins <-> nodePins st idx n x.
Proof.
  intros (n & Hn & Hk & Hp). exists n. split; [done|]. intros x.
  rewrite (pinNode_spec _ _ _ Hp x). unfold nodePins.
  destruct (localsOf_valueUnder (elems st (Content n)) (mkLocals None None None))
    as (-> & -> & ->). simpl.
  assert (forall o : option ptr, from_option Some None o = o) as Hid by (by intros [?|]).
  rewrite !Hid. split.
  - intros [Hx|?]; [by apply not_elem_of_empty in Hx|done].
  - intros [_ ?]. by right.
Qed.

(** A key with a value is a key. *)
Lemma valueUnder_hasKey key l d :
  valueUnder st key l = Some d -> hasKey st key l = true.
Proof.
  induction l as [| a | k v l IH] using pairs_ind; simpl; [done..|].
  destruct (nodes st !! k) as [kn|]; [|done].
  destruct (valueUnder st key l) as [w|].
  - intros Hw. rewrite (IH Hw). by rewrite orb_true_r.
  - destruct (decide (Value kn = key)) as [Heq|Hne]; [|done].
    intros _. by rewrite bool_decide_true.
Qed.

Lemma nodePins_hasKey n x :
  nodePins st idx n x ->
  Kind_ n = MappingNode /\ hasKey st "discriminator" (elems st (Content n)) = true.
Proof.
  intros [Hk (d & dn & Hd & _)]. split; [done|].
  by apply (valueUnder_hasKey _ _ d).
Qed.

End NodeTargets.

Section WalkReaches.
Context `{IndexLookups}.
Variable st : St.
Variable idx : SpecIndex.

Lemma res_fold_ok_each {A} (f : gset string -> A -> res (gset string)) (l : list A) :
  forall pinned r a,
    res_fold f l pinned = Ok r -> a ∈ l ->
    exists pinned' r', f pinned' a = Ok r'.
Proof.
  induction l as [|b l IH]; intros pinned r a Hr Ha; simpl in Hr.
  - by apply elem_of_nil in Ha.
  - destruct (f pinned b) as [r1|e] eqn:E; simpl in Hr; [|done].
    apply elem_of_cons in Ha as [->|Ha]; [by exists pinned, r1|].
    by apply (IH r1 r a).
Qed.

Lemma walkPairs_ok_each (rec : ptr -> gset string -> res (gset string)) (l : list ptr) :
  forall lc pinned out c,
    walkPairs st rec l lc pinned = Ok out -> c ∈ pairValues l ->
    exists pinned' r', rec c pinned' = Ok r'.
Proof.
  induction l as [| a | k v l IH] using pairs_ind; intros lc pinned out c Hr Hc;
    simpl in Hr, Hc.
  - by apply elem_of_nil in Hc.
  - by apply elem_of_nil in Hc.
  - unfold deref in Hr. destruct (nodes st !! k) as [kn|]; simpl in Hr; [|done].
    destruct (rec v pinned) as [r1|e] eqn:E; simpl in Hr; [|done].
    apply elem_of_cons in Hc as [->|Hc]; [by exists pinned, r1|].
    by apply (IH _ _ _ c Hr).
Qed.

(** A walk that ends normally has ended normally on every node it
    visited. *)
Lemma collect_ok_visits p q :
  Visits st p q ->
  forall depth pinned r,
    collectDiscriminatorMappingValues st depth idx p pinned = Ok r ->
    exists depth' pinned' r',
      collectDiscriminatorMappingValues st depth' idx q pinned' = Ok r'.
Proof.
  induction 1 as [p|p n c q Hn Hc Hv IH]; intros depth pinned r Hr.
  - by exists depth, pinned, r.
  - destruct depth as [|depth]; simpl in Hr; [done|].
    rewrite Hn in Hr. simpl in Hr. unfold walkedChildren in Hc.
    destruct (Kind_ n) eqn:Hk; try (by apply elem_of_nil in Hc).
    + destruct (res_fold_ok_each _ _ _ _ c Hr Hc) as (p' & r' & Hc').
      by apply (IH depth p' r').
    + destruct (walkPairs _ _ _ _ _) as [out|e] eqn:Hw; simpl in Hr; [|done].
      destruct (walkPairs_ok_each _ _ _ _ _ c Hw Hc) as (p' & r' & Hc').
      by apply (IH depth p' r').
Qed.

Lemma collect_ok_ownPins depth q pinned r n :
  collectDiscriminatorMappingValues st depth idx q pinned = Ok r ->
  unwrapDocument st q = Ok n ->
  Kind_ n = MappingNode ->
  exists pins, ownPins st idx q pins.
Proof.
  intros Hr Hn Hk. destruct depth as [|depth]; simpl in Hr; [done|].
  rewrite Hn in Hr. simpl in Hr. rewrite Hk in Hr.
  destruct (walkPairs _ _ _ _ _) as [[lc r1]|e] eqn:Hw; simpl in Hr; [|done].
  destruct (walkPairs_spec st idx (collectDiscriminatorMappingValues st depth idx)
              (elems st (Content n))
              (fun c p' r' _ => collect_spec st idx depth c p' r') _ _ _ _ Hw)
    as [-> _].
  rewrite (pinNode_additive st idx _ r1) in Hr.
  destruct (pinNode st idx _ ∅) as [pins|e] eqn:Hp; simpl in Hr; [|done].
  exists pins, n. by repeat split.
Qed.

End WalkReaches.

(** C4, as the code has it. When the discriminator walk from [p] ends
    normally, the preserve set has grown by exactly what the mapping nodes
    the walk visited pin for themselves. What a node pins is read off the
    tree by its keys ([nodePins]): a mapping node pins for itself only if
    the value under its key [discriminator] is a node; then the targets
    named under the key [mapping] of that discriminator (when it is a
    mapping node with such a key) and the targets of the scalar [$ref]s in
    the mapping items of the sequences under its keys [oneOf] and [anyOf]
    are added, whether or not the discriminator carries a [mapping]. Each
    string added is the path of the index owning the reference found,
    followed by the reference's definition. A node without a
    [discriminator] key adds nothing for itself. *)
Theorem walk_pins_exactly `{IndexLookups}
    (st : St) (depth : nat) (idx : SpecIndex) (p : ptr) (pinned r : gset string) :
  collectDiscriminatorMappingValues st depth idx p pinned = Ok r ->
  (forall x, x ∈ r <->
             x ∈ pinned \/
             exists q n, Visits st p q /\ unwrapDocument st q = Ok n /\
                         nodePins st idx n x) /\
  (forall n x, nodePins st idx n x ->
               Kind_ n = MappingNode /\
               hasKey st "discriminator" (elems st (Content n)) = true /\
               isPinFor idx x).
Proof.
  intros Hr. split.
  - intros x. rewrite (collect_spec st idx depth p pinned r Hr x). split.
    + intros [?|(q & pins & Hv & Ho & Hx)]; [by left|right].
      destruct (ownPins_nodePins st idx q pins Ho) as (n & Hn & Hpins).
      exists q, n. split; [done|]. split; [done|]. by apply Hpins.
    + intros [?|(q & n & Hv & Hn & Hx)]; [by left|right].
      destruct (collect_ok_visits st idx p q Hv depth pinned r Hr) as (d' & p' & r' & Hq).
      destruct (collect_ok_ownPins st idx d' q p' r' n Hq Hn (proj1 Hx)) as [pins Ho].
      exists q, pins. split; [done|]. split; [done|].
      destruct (ownPins_nodePins st idx q pins Ho) as (n' & Hn' & Hpins).
      rewrite Hn in Hn'. injection Hn' as <-. by apply Hpins.
  - intros n x Hx. destruct (nodePins_hasKey st idx n x Hx) as [Hk Hd].
    split; [done|]. split; [done|].
    destruct Hx as [_ (d & dn & _ & _ & Ht)].
    assert (forall v, refTarget st idx v x -> isPinFor idx x) as Hform.
    { intros v (vn & ref & ri & _ & Hs & ->). by exists (Value vn), ref, ri. }
    destruct Ht as [[_ (k & kn & mn & mnn & e & v & _ & _ & _ & _ & _ & Ht)]|
                    [(p0 & sn & item & itn & k & kn & v & vn & Hrest)|
                     (p0 & sn & item & itn & k & kn & v & vn & Hrest)]].
    + by apply (Hform v).
    + apply (Hform v). by destruct Hrest as (_ & _ & _ & _ & _ & _ & _ & _ & _ & _ & _ & Ht).
    + apply (Hform v). by destruct Hrest as (_ & _ & _ & _ & _ & _ & _ & _ & _ & _ & _ & Ht).
Qed.

(** C4 on the two-file document: the walk of [main.yaml] from its document
    node pins the [Cat] branch of [Pet] and nothing else. *)
Lemma walk_pins_exactly_witness :
  (forall x, x ∈ ({[ Demo.ext_path +:+ Demo.def_Cat ]} : gset string) <->
             x ∈ (∅ : gset string) \/
             exists q n, Visits Demo.demo_st 1 q /\ unwrapDocument Demo.demo_st q = Ok n /\
                         nodePins (H:=Demo.demo_lookups) Demo.demo_st Demo.main_index n x) /\
  (forall n x, nodePins (H:=Demo.demo_lookups) Demo.demo_st Demo.main_index n x ->
               Kind_ n = MappingNode /\
               hasKey Demo.demo_st "discriminator" (elems Demo.demo_st (Content n)) = true /\
               isPinFor (H:=Demo.demo_lookups) Demo.main_index x).
Proof.
  apply (walk_pins_exactly (H:=Demo.demo_lookups) Demo.demo_st 10 Demo.main_index 1 ∅).
  vm_compute. reflexivity.
Defined.

(** C4 as stated fails on the two-file document: the discriminator of [Pet]
    (node 18, [{propertyName: kind}]) has no [mapping], so walking it pins
    nothing, and yet the walk of [Pet] (node 10) pins the target of the
    [$ref] under its [oneOf]. *)
Lemma walk_pins_exactly_counterexample :
  nodes Demo.demo_st !! 18 = Some (Demo.mapping 18 2) /\
  hasKey Demo.demo_st "mapping" (elems Demo.demo_st (Content (Demo.mapping 18 2))) = false /\
  walkDiscriminatorMapping (H:=Demo.demo_lookups) Demo.demo_st Demo.main_index
    (Demo.mapping 18 2) ∅ = Ok ∅ /\
  collectDiscriminatorMappingValues (H:=Demo.demo_lookups) Demo.demo_st 10
    Demo.main_index 10 ∅ = Ok {[ Demo.ext_path +:+ Demo.def_Cat ]}.
Proof.
  repeat split; vm_compute; reflexivity.
Qed.

(** ** When the walk ends normally *)

Section Totality.
Context `{IndexLookups}.
Variable st : St.
Variable idx : SpecIndex.

Local Abbreviation WF := (fun c => exists h, wellFormed st h c = true).
Local Abbreviation allNodes := (fun l : list ptr => forall c, c ∈ l -> is_Some (nodes st !! c)).

Lemma wellFormed_inv h p :
  wellFormed st (S h) p = true ->
  exists n, nodes st !! p = Some n /\
            (forall c, c ∈ elems st (Content n) -> wellFormed st h c = true) /\
            (Kind_ n = MappingNode ->
             Nat.even (List.length (elems st (Content n))) = true).
Proof.
  simpl. destruct (nodes st !! p) as [n|]; [|done].
  intros [Hc Hm]%andb_prop. exists n. split; [done|]. split.
  - intros c Hin. rewrite forallb_forall in Hc. apply Hc. by apply list_elem_of_In.
  - intros Hk. by rewrite Hk in Hm.
Qed.

Lemma WF_node c : WF c -> is_Some (nodes st !! c).
Proof.
  intros [[|h] Hw]; [done|]. destruct (wellFormed_inv h c Hw) as (n & -> & _). by eexists.
Qed.

Lemma WF_children c cn : WF c -> nodes st !! c = Some cn -> forall i, i ∈ elems st (Content cn) -> WF i.
Proof.
  intros [[|h] Hw] Hc i Hi; [done|].
  destruct (wellFormed_inv h c Hw) as (n & Hn & Hch & _).
  rewrite Hc in Hn. injection Hn as <-. exists h. by apply Hch.
Qed.

Lemma WF_allNodes c cn : WF c -> nodes st !! c = Some cn -> allNodes (elems st (Content cn)).
Proof. intros Hw Hc i Hi. apply WF_node. by apply (WF_children c cn). Qed.

Lemma WF_mapping c cn :
  WF c -> nodes st !! c = Some cn -> Kind_ cn = MappingNode ->
  Nat.even (List.length (elems st (Content cn))) = true.
Proof.
  intros [[|h] Hw] Hc Hk; [done|].
  destruct (wellFormed_inv h c Hw) as (n & Hn & _ & Hm).
  rewrite Hc in Hn. injection Hn as <-. by apply Hm.
Qed.

Lemma res_fold_total {A} (f : gset string -> A -> res (gset string)) (l : list A) :
  (forall a, a ∈ l -> forall pinned, exists r, f pinned a = Ok r) ->
  forall pinned, exists r, res_fold f l pinned = Ok r.
Proof.
  induction l as [|a l IH]; intros Hf pinned; simpl; [by eexists|].
  destruct (Hf a (list_elem_of_here _ _) pinned) as [r1 ->]. simpl.
  apply IH. intros b Hb. apply Hf. by right.
Qed.

Lemma walkMappingEntries_total l :
  Nat.even (List.length l) = true -> allNodes l ->
  forall pinned, exists r, walkMappingEntries st idx l pinned = Ok r.
Proof.
  induction l as [| a | k v l IH] using pairs_ind; intros He Hn pinned; simpl;
    [by eexists|done|].
  destruct (Hn v) as [vn Hv]; [set_solver|]. unfold deref. rewrite Hv. simpl.
  apply IH; [done|]. intros c Hc. apply Hn. set_solver.
Qed.

Lemma walkItemEntries_total l :
  Nat.even (List.length l) = true -> allNodes l ->
  forall pinned, exists r, walkItemEntries st idx l pinned = Ok r.
Proof.
  induction l as [| a | k v l IH] using pairs_ind; intros He Hn pinned; simpl;
    [by eexists|done|].
  destruct (Hn k) as [kn Hk]; [set_solver|].
  destruct (Hn v) as [vn Hv]; [set_solver|].
  unfold deref. rewrite Hk. simpl.
  assert (allNodes l) as Hl by (intros c Hc; apply Hn; set_solver).
  case_decide; [|by apply IH]. rewrite Hv. simpl. case_decide; by apply IH.
Qed.

Lemma walkDiscriminatorEntries_total l :
  Nat.even (List.length l) = true ->
  oddMappingIn st l = false ->
  (forall c, c ∈ l -> WF c) ->
  forall pinned, exists r, walkDiscriminatorEntries st idx l pinned = Ok r.
Proof.
  induction l as [| a | k mn l IH] using pairs_ind; intros He Hp Hw pinned; simpl;
    [by eexists|done|].
  simpl in Hp. unfold deref.
  destruct (WF_node k (Hw k ltac:(set_solver))) as [kn Hk].
  destruct (WF_node mn (Hw mn ltac:(set_solver))) as [mnn Hmn].
  rewrite Hk, Hmn in Hp. rewrite Hk. simpl.
  apply orb_false_elim in Hp as [Hodd Hp].
  assert (forall c, c ∈ l -> WF c) as Hl by (intros c Hc; apply Hw; set_solver).
  case_decide as Hval; [|by apply IH].
  rewrite bool_decide_true in Hodd by done. simpl in Hodd.
  assert (Nat.even (List.length (elems st (Content mnn))) = true) as Hev.
  { unfold Nat.odd in Hodd. by apply negb_false_iff in Hodd. }
  rewrite Hmn. simpl.
  destruct (walkMappingEntries_total (elems st (Content mnn)) Hev
              (WF_allNodes mn mnn (Hw mn ltac:(set_solver)) Hmn) pinned) as [r1 ->].
  simpl. by apply IH.
Qed.

Lemma walkDiscriminatorMapping_total d dn :
  WF d -> nodes st !! d = Some dn ->
  (Kind_ dn = MappingNode -> oddMappingIn st (elems st (Content dn)) = false) ->
  forall pinned, exists r, walkDiscriminatorMapping st idx dn pinned = Ok r.
Proof.
  intros Hw Hd Hodd pinned. unfold walkDiscriminatorMapping.
  case_decide as Hk; [|by eexists].
  apply walkDiscriminatorEntries_total;
    [by apply (WF_mapping d dn) | by apply Hodd | by apply (WF_children d dn)].
Qed.

Lemma walkUnionRefs_total seq :
  (forall p, seq = Some p -> is_Some (nodes st !! p) -> WF p) ->
  forall pinned, exists r, walkUnionRefs st idx seq pinned = Ok r.
Proof.
  intros Hw pinned. unfold walkUnionRefs. destruct seq as [p|]; [|by eexists].
  destruct (nodes st !! p) as [sn|] eqn:Hp; [|by eexists].
  case_decide as Hk; [|by eexists].
  assert (WF p) as Hwp by (apply Hw; [done|by eexists]).
  apply res_fold_total. intros item Hi pinned'.
  pose proof (WF_children p sn Hwp Hp item Hi) as Hwi.
  destruct (WF_node item Hwi) as [itn Hitn]. unfold deref. rewrite Hitn. simpl.
  case_decide as Hm; [|by eexists].
  apply walkItemEntries_total; [by apply (WF_mapping item itn)|].
  by apply (WF_allNodes item itn).
Qed.

Lemma assignLocal_in (P : ptr -> Prop) key v lc :
  P v -> localsIn P lc -> localsIn P (assignLocal key v lc).
Proof.
  intros Hv (H1 & H2 & H3). unfold assignLocal, localsIn.
  repeat case_decide; simpl; repeat split; try done; by intros ? [= <-].
Qed.

Lemma localsOf_in (P : ptr -> Prop) l :
  (forall c, c ∈ l -> P c) ->
  forall lc, localsIn P lc -> localsIn P (localsOf st l lc).
Proof.
  induction l as [| a | k v l IH] using pairs_ind; intros Hl lc Hlc; simpl; [done..|].
  destruct (nodes st !! k) as [kn|]; [|done].
  apply IH; [intros c Hc; apply Hl; set_solver|].
  apply assignLocal_in; [apply Hl; set_solver|done].
Qed.

Lemma pinNode_total lc :
  localsIn WF lc ->
  (forall d dn, discriminator lc = Some d -> nodes st !! d = Some dn ->
                Kind_ dn = MappingNode ->
                oddMappingIn st (elems st (Content dn)) = false) ->
  forall pinned, exists r, pinNode st idx lc pinned = Ok r.
Proof.
  intros (Hd & Ho & Ha) Hodd pinned. unfold pinNode.
  destruct (discriminator lc) as [d|]; [|by eexists].
  destruct (nodes st !! d) as [dn|] eqn:Hdn; [|by eexists].
  destruct (walkDiscriminatorMapping_total d dn (Hd d eq_refl) Hdn
              (Hodd d dn eq_refl Hdn) pinned) as [r1 ->].
  simpl.
  destruct (walkUnionRefs_total (oneOf lc) (fun p Hp _ => Ho p Hp) r1) as [r2 ->].
  simpl. apply walkUnionRefs_total. intros p Hp _. by apply Ha.
Qed.

Lemma walkPairs_total (rec : ptr -> gset string -> res (gset string)) l :
  Nat.even (List.length l) = true -> allNodes l ->
  (forall c, c ∈ pairValues l -> forall pinned, exists r, rec c pinned = Ok r) ->
  forall lc pinned, exists r, walkPairs st rec l lc pinned = Ok (localsOf st l lc, r).
Proof.
  induction l as [| a | k v l IH] using pairs_ind; intros He Hn Hrec lc pinned; simpl;
    [by eexists|done|].
  destruct (Hn k) as [kn Hk]; [set_solver|]. unfold deref. rewrite Hk. simpl.
  destruct (Hrec v ltac:(simpl; set_solver) pinned) as [r1 ->]. simpl.
  apply IH; [done| |]; intros c Hc; [apply Hn|apply Hrec; simpl]; set_solver.
Qed.

Lemma pairValues_elem (l : list ptr) c : c ∈ pairValues l -> c ∈ l.
Proof.
  induction l as [| a | k v l IH] using pairs_ind; simpl;
    [by intros ?%elem_of_nil..|].
  intros [->|Hc]%elem_of_cons; set_solver.
Qed.

Lemma walkedChildren_elem n c : c ∈ walkedChildren st n -> c ∈ elems st (Content n).
Proof.
  unfold walkedChildren. destruct (Kind_ n); try (by intros ?%elem_of_nil); [done|].
  apply pairValues_elem.
Qed.

(** On such a tree the walk ends normally as soon as its depth bound
    reaches the height of the tree, unless it meets a discriminator with a
    [mapping] over an odd number of children. *)
Lemma collect_total depth :
  forall h p, h <= depth -> wellFormed st h p = true ->
  (forall q n, Visits st p q -> unwrapDocument st q = Ok n ->
               oddDiscriminator st n = false) ->
  forall pinned, exists r, collectDiscriminatorMappingValues st depth idx p pinned = Ok r.
Proof.
  induction depth as [|depth IH]; intros h p Hh Hw Hodd pinned.
  - assert (h = 0) as -> by lia. done.
  - destruct h as [|h]; [done|].
    destruct (wellFormed_inv h p Hw) as (n & Hn & Hch & Hm).
    (* the node the walk lands on after unwrapping a document *)
    assert (exists n' h', h' <= depth /\ unwrapDocument st p = Ok n' /\
              (forall c, c ∈ elems st (Content n') -> wellFormed st h' c = true) /\
              (Kind_ n' = MappingNode ->
               Nat.even (List.length (elems st (Content n'))) = true))
      as (n' & h' & Hh' & Hu & Hch' & Hm').
    { unfold unwrapDocument, deref. rewrite Hn. simpl.
      case_decide as Hk.
      - destruct (elems st (Content n)) as [|c cs] eqn:He.
        + exists n, h. rewrite He. split; [lia|]. split; [done|].
          split; [intros c Hc; by apply elem_of_nil in Hc|]. intros Hk'. by rewrite Hk in Hk'.
        + pose proof (Hch c ltac:(set_solver)) as Hwc.
          destruct h as [|h]; [done|].
          destruct (wellFormed_inv h c Hwc) as (cn & Hcn & Hcc & Hcm).
          exists cn, h. rewrite Hcn. split; [lia|]. by split.
      - exists n, h. split; [lia|]. by split. }
    simpl. rewrite Hu. simpl.
    assert (forall c, c ∈ walkedChildren st n' ->
                      forall pinned, exists r,
                        collectDiscriminatorMappingValues st depth idx c pinned = Ok r)
      as Hrec.
    { intros c Hc pinned'.
      apply (IH h' c Hh' (Hch' c (walkedChildren_elem n' c Hc))).
      intros q n0 Hv Hn0. apply (Hodd q n0); [|done].
      by apply (visits_child st p n' c q). }
    assert (forall c, c ∈ elems st (Content n') -> WF c) as Hwf.
    { intros c Hc. exists h'. by apply Hch'. }
    pose proof (Hodd p n' (visits_here st p) Hu) as Hhere.
    unfold walkedChildren in Hrec. unfold oddDiscriminator in Hhere.
    destruct (Kind_ n') eqn:Hk; try by eexists.
    + by apply res_fold_total.
    + destruct (walkPairs_total (collectDiscriminatorMappingValues st depth idx)
                  (elems st (Content n')) (Hm' eq_refl)
                  (fun c Hc => WF_node c (Hwf c Hc)) Hrec
                  (mkLocals None None None) pinned) as [r1 ->].
      simpl. apply pinNode_total.
      * apply localsOf_in; [done|]. by repeat split.
      * intros d dn Hd Hdn Hkd.
        destruct (localsOf_valueUnder st (elems st (Content n')) (mkLocals None None None))
          as (Hdisc & _ & _).
        rewrite Hdisc in Hd. simpl in Hd.
        destruct (valueUnder st "discriminator" (elems st (Content n'))) as [d'|];
          simpl in Hd; [|done].
        injection Hd as ->. by rewrite Hdn, Hkd in Hhere.
Qed.

(** ** What a walk that ends normally has met *)

Lemma walkMappingEntries_ok_even l :
  forall pinned r,
    walkMappingEntries st idx l pinned = Ok r -> Nat.even (List.length l) = true.
Proof.
  induction l as [| a | k v l IH] using pairs_ind; intros pinned r Hr; simpl in *;
    [done..|].
  unfold deref in Hr. destruct (nodes st !! v) as [vn|]; simpl in Hr; [|done].
  by apply (IH _ _ Hr).
Qed.

Lemma walkDiscriminatorEntries_ok l :
  forall pinned r,
    walkDiscriminatorEntries st idx l pinned = Ok r -> oddMappingIn st l = false.
Proof.
  induction l as [| a | k mn l IH] using pairs_ind; intros pinned r Hr; simpl in *;
    [done..|].
  unfold deref in Hr. destruct (nodes st !! k) as [kn|]; simpl in Hr; [|done].
  case_decide as Hval.
  - destruct (nodes st !! mn) as [mnn|]; simpl in Hr; [|done].
    destruct (walkMappingEntries st idx (elems st (Content mnn)) pinned) as [r1|e] eqn:Hm;
      simpl in Hr; [|done].
    rewrite (IH _ _ Hr), orb_false_r. unfold Nat.odd.
    by rewrite (walkMappingEntries_ok_even _ _ _ Hm), andb_false_r.
  - rewrite (IH _ _ Hr), bool_decide_false by done. by destruct (nodes st !! mn).
Qed.

(** A walk that ends normally has met no discriminator with a [mapping]
    over an odd number of children. *)
Lemma collect_ok_even depth p pinned r q n :
  collectDiscriminatorMappingValues st depth idx p pinned = Ok r ->
  Visits st p q -> unwrapDocument st q = Ok n ->
  oddDiscriminator st n = false.
Proof.
  intros Hr Hv Hn. unfold oddDiscriminator.
  destruct (Kind_ n) eqn:Hk; try done.
  destruct (valueUnder st "discriminator" (elems st (Content n))) as [d|] eqn:Hd; [|done].
  destruct (nodes st !! d) as [dn|] eqn:Hdn; [|done].
  destruct (Kind_ dn) eqn:Hkd; try done.
  destruct (collect_ok_visits st idx p q Hv depth pinned r Hr) as (d' & p' & r' & Hq).
  destruct (collect_ok_ownPins st idx d' q p' r' n Hq Hn Hk) as (pins & n0 & Hn0 & _ & Hp).
  rewrite Hn in Hn0. injection Hn0 as <-.
  unfold pinNode in Hp.
  destruct (localsOf_valueUnder st (elems st (Content n)) (mkLocals None None None))
    as (Hdisc & _ & _).
  rewrite Hdisc, Hd in Hp. simpl in Hp. rewrite Hdn in Hp.
  destruct (walkDiscriminatorMapping st idx dn ∅) as [r1|e] eqn:Hw; simpl in Hp; [|done].
  unfold walkDiscriminatorMapping in Hw. rewrite decide_True in Hw by done.
  by apply (walkDiscriminatorEntries_ok _ _ _ Hw).
Qed.

(** The check of the visited nodes, run on a tree, speaks for every node
    the walk lands on. *)
Lemma visitedAll_spec (P : YamlNode -> bool) p q :
  Visits st p q ->
  forall h n, visitedAll st P h p = true -> unwrapDocument st q = Ok n -> P n = true.
Proof.
  induction 1 as [p|p n c q Hn Hc Hv IH]; intros h n0 Hall Hq.
  - destruct h as [|h]; simpl in Hall; [done|]. rewrite Hq in Hall.
    by apply andb_prop in Hall as [? _].
  - destruct h as [|h]; simpl in Hall; [done|]. rewrite Hn in Hall.
    apply andb_prop in Hall as [_ Hch]. rewrite forallb_forall in Hch.
    apply (IH h n0); [|done]. apply Hch. by apply list_elem_of_In.
Qed.

End Totality.

(** ** Documents without references *)

Section NoReferences.
Context `{IndexLookups} `{Renderer}.





End NoReferences.




(** ** The checks of compose *)

Lemma strings_Contains_char (s : string) (c : ascii) :
  strings_Contains s (String c EmptyString) = true <-> In c (list_ascii_of_string s).
Proof.
  induction s as [|a s IH]; simpl.
  - split; [discriminate|tauto].
  - destruct (ascii_dec c a) as [->|Hne].
    + assert (String.prefix EmptyString s = true) as -> by (by destruct s).
      simpl. split; [by left|done].
    + simpl. rewrite IH. split; [by right|]. intros [Heq|?]; [by subst|done].
Qed.

Lemma checkDelimiter_refused (delimiter : string) :
  (refused delimiter -> exists e, checkDelimiter delimiter = Some e) /\
  (~ refused delimiter -> checkDelimiter delimiter = None).
Proof.
  unfold refused, checkDelimiter.
  rewrite <-!strings_Contains_char.
  destruct (strings_Contains delimiter "#"), (strings_Contains delimiter "/"),
           (strings_Contains delimiter " "); simpl; split; intros Hr;
    try (by eexists); try done;
    try (exfalso; apply Hr; auto; fail);
    destruct Hr as [?|[?|?]]; done.
Qed.

(** C5, as the code has it. A configuration whose [Delimiter] contains a
    ['#'], a ['/'] or a space makes [compose] return an error and no bytes,
    with the heap untouched and the composition never started. Other
    whitespace is not looked for. A delimiter without those three
    characters is passed on as it is; when the configuration is absent the
    delimiter is ["__"], and when its [Delimiter] is empty it is set to
    ["__"] in the caller's configuration; in these cases the composition
    proper runs as soon as the model and its rolodex are there. *)
Theorem compose_checks_delimiter `{Composer}
    (model : Document) (rolodex : Rolodex) (c : nat) (st : St) :
  Rolodex_ model = Some rolodex ->
  (configs st !! c = None ->
   compose (Some model) c st = composeRolodex model rolodex (mkConfig "__") st) /\
  (forall cfg,
      configs st !! c = Some cfg ->
      (Delimiter cfg = "" ->
       compose (Some model) c st
       = composeRolodex model rolodex (mkConfig "__")
           (mkSt (nodes st) (arrays st) (<[c := mkConfig "__"]> (configs st)) (logs st))) /\
      (refused (Delimiter cfg) ->
       exists e, forall anyModel, compose anyModel c st = (st, Ok (None, Some e))) /\
      (Delimiter cfg <> "" -> ~ refused (Delimiter cfg) ->
       compose (Some model) c st = composeRolodex model rolodex cfg st)).
Proof.
  intros Hro. split; [|intros cfg Hcfg; split; [|split]].
  - intros Hnone. unfold compose. rewrite Hnone. simpl. by rewrite Hro.
  - intros Hempty. unfold compose. rewrite Hcfg.
    rewrite !decide_True by done. unfold bind, set_Delimiter. simpl. by rewrite Hro.
  - intros Hr. destruct (proj1 (checkDelimiter_refused _) Hr) as [e He].
    exists e. intros anyModel. unfold compose. rewrite Hcfg.
    assert (Delimiter cfg <> "") as Hne.
    { intros Heq. rewrite Heq in Hr. destruct Hr as [[]|[[]|[]]]. }
    rewrite !decide_False by done. unfold bind, ret. by rewrite He.
  - intros Hne Hr. unfold compose. rewrite Hcfg.
    rewrite !decide_False by done. unfold bind, ret.
    rewrite (proj2 (checkDelimiter_refused _) Hr). simpl. rewrite Hro.
    by destruct cfg.
Qed.

(** C5 on the two-file model: the delimiter ["a/b"] is refused. *)
Lemma compose_checks_delimiter_witness :
  exists e, compose (H:=Demo.demo_composer) (Some Demo.demo_model) 1
              (mkSt ∅ ∅ {[ 1 := mkConfig "a/b" ]} [])
            = (mkSt ∅ ∅ {[ 1 := mkConfig "a/b" ]} [], Ok (None, Some e)).
Proof.
  destruct (proj2 (compose_checks_delimiter (H:=Demo.demo_composer)
                     Demo.demo_model Demo.demo_rolodex 1
                     (mkSt ∅ ∅ {[ 1 := mkConfig "a/b" ]} []) eq_refl)
                  (mkConfig "a/b")) as (_ & Hrefused & _); [vm_compute; reflexivity|].
  destruct Hrefused as [e He].
  - right; left. simpl. tauto.
  - exists e. apply He.
Defined.

(** C5 as stated fails on whitespace other than the space: a delimiter made
    of one tab passes both checks, whatever the composition proper is, and
    here the composition returns bytes and no error. *)
Lemma compose_checks_delimiter_counterexample :
  Demo.tab = String (ascii_of_nat 9) EmptyString /\
  (forall C : Composer,
      compose (H:=C) (Some Demo.demo_model) 1 Demo.tab_st
      = composeRolodex (Composer:=C) Demo.demo_model Demo.demo_rolodex
          (mkConfig Demo.tab) Demo.tab_st) /\
  compose (H:=Demo.demo_composer) (Some Demo.demo_model) 1 Demo.tab_st
  = (Demo.tab_st, Ok (Some ("composed" +:+ Demo.tab), None)).
Proof.
  split; [reflexivity|]. split; [intros C|]; reflexivity.
Qed.

(** C10, as the code has it. With a nil model, or a model whose rolodex is
    nil, [compose] does not panic: it returns no bytes and an error, the
    composition proper is never started (the outcome is the same whatever
    it is), and no node, array or log is touched. One write can precede the
    check: the empty [Delimiter] of a configuration the caller supplied has
    by then been set to ["__"]; otherwise the configurations are untouched
    too. *)
Theorem compose_without_model `{Composer} (model : option Document) (c : nat) (st : St) :
  model = None \/ (exists d, model = Some d /\ Rolodex_ d = None) ->
  let run := compose model c st in
  (exists e, run.2 = Ok (None, Some e)) /\
  nodes run.1 = nodes st /\ arrays run.1 = arrays st /\ logs run.1 = logs st /\
  configs run.1 = match configs st !! c with
                  | Some cfg => if decide (Delimiter cfg = "")
                                then <[c := mkConfig "__"]> (configs st)
                                else configs st
                  | None => configs st
                  end /\
  (forall C : Composer, compose (H:=C) model c st = run).
Proof.
  intros Hmodel run.
  assert (forall (C : Composer) cfg s,
             composeChecked (H:=C) model cfg s
             = (s, Ok (None, Some (errors_New "model or rolodex is nil")))) as Hchecked.
  { intros C cfg s. destruct Hmodel as [->|(d & -> & Hd)]; simpl; [done|by rewrite Hd]. }
  assert (forall C : Composer,
             compose (H:=C) model c st
             = match configs st !! c with
               | None => (st, Ok (None, Some (errors_New "model or rolodex is nil")))
               | Some cfg =>
                   if decide (Delimiter cfg = "")
                   then (mkSt (nodes st) (arrays st) (<[c := mkConfig "__"]> (configs st))
                              (logs st),
                         Ok (None, Some (errors_New "model or rolodex is nil")))
                   else (st, Ok (None, Some (match checkDelimiter (Delimiter cfg) with
                                             | Some e => e
                                             | None => errors_New "model or rolodex is nil"
                                             end)))
               end) as Hrun.
  { intros C. unfold compose. destruct (configs st !! c) as [cfg|]; [|apply Hchecked].
    unfold bind, set_Delimiter, ret. case_decide as Hd.
    - simpl. apply Hchecked.
    - destruct (checkDelimiter (Delimiter cfg)); [done|apply Hchecked]. }
  assert (forall C : Composer, compose (H:=C) model c st = run) as Hsame.
  { intros C. subst run. by rewrite (Hrun C), (Hrun H). }
  split; [|split; [|split; [|split; [|split]]]]; [..|exact Hsame];
    subst run; rewrite (Hrun H);
    (destruct (configs st !! c) as [cfg|]; [case_decide|]; simpl; by eauto).
Qed.

(** C10 where the delimiter passes its checks, so that the check of the
    model is what answers: a nil model with the delimiter ["-"], and a model
    whose rolodex is nil with no configuration at all. Both give no bytes and
    the error of that check. *)
Lemma compose_without_model_witness :
  (compose (H:=Demo.demo_composer) None 1
     (mkSt ∅ ∅ {[ 1 := mkConfig "-" ]} [])).2
  = Ok (None, Some (errors_New "model or rolodex is nil")) /\
  (compose (H:=Demo.demo_composer) (Some (mkDocument None)) 1 (mkSt ∅ ∅ ∅ [])).2
  = Ok (None, Some (errors_New "model or rolodex is nil")).
Proof.
  split.
  - destruct (compose_without_model (H:=Demo.demo_composer) None 1
                (mkSt ∅ ∅ {[ 1 := mkConfig "-" ]} [])) as [[e He] _].
    + left. reflexivity.
    + rewrite He. vm_compute in He. congruence.
  - destruct (compose_without_model (H:=Demo.demo_composer) (Some (mkDocument None)) 1
                (mkSt ∅ ∅ ∅ [])) as [[e He] _].
    + right. exists (mkDocument None). split; reflexivity.
    + rewrite He. vm_compute in He. congruence.
Defined.

(** C10 as stated fails on the configuration: called with a nil model and a
    configuration whose [Delimiter] is empty, [compose] returns its error
    and leaves the caller's configuration changed. *)
Lemma compose_without_model_counterexample :
  let run := compose (H:=Demo.demo_composer) None 1 Demo.empty_delimiter_st in
  run.2 = Ok (None, Some (errors_New "model or rolodex is nil")) /\
  configs Demo.empty_delimiter_st !! 1 = Some (mkConfig "") /\
  configs run.1 !! 1 = Some (mkConfig "__").
Proof.
  repeat split; vm_compute; reflexivity.
Qed.

(** ** The byte entry points *)





(** ** The schema proxy *)

Section ProxyFacts.
Context `{SchemaBuilder}.

(** Once [rendered] is set, Schema() is a read: same receiver, same heap,
    same pointer, however often it is called. *)
Lemma Schema_rendered sp s h : rendered sp = Some s -> Schema sp h = (sp, h, Some s).
Proof. unfold Schema. by intros ->. Qed.

Lemma Schema_again_rendered n sp s h :
  rendered sp = Some s -> Schema_again n sp h = (sp, h, Some s).
Proof.
  intros Hr. induction n as [|n IH]; simpl; rewrite (Schema_rendered sp s h Hr); [done|].
  apply IH.
Qed.

Lemma Schema_some sp h sp1 h1 s :
  Schema sp h = (sp1, h1, Some s) -> rendered sp1 = Some s.
Proof.
  unfold Schema. destruct (rendered sp) as [s0|] eqn:Hr.
  - by intros [= <- <- <-].
  - destruct (Schema_Build _ _ _ _) as [fields [e|]]; [done|]. by intros [= <- <- <-].
Qed.

End ProxyFacts.

(** C8. A SchemaProxy builds its schema on demand and keeps it. Build()
    renders nothing: it stores the node and the index and leaves [rendered]
    nil. While nothing is rendered, a call of Schema() whose build succeeds
    allocates one [Schema], at a fresh address, whose fields are the ones
    built from the stored node and index; it returns that address and keeps
    it in [rendered]. After a call of Schema() that returns a schema [s],
    every later call returns the same [s], whatever the heap has become, and
    allocates and builds nothing: receiver and heap come back as they were.
    While nothing is rendered, a build that fails with [e] makes Schema()
    return nil and leaves [e] for GetBuildError(); a nil result always comes
    with such an error. GetBuildError() is nil on a proxy on which Schema()
    has not run, and stays nil through calls in which no error occurs. *)
Theorem Schema_memoizes `{SchemaBuilder} (sp : SchemaProxy) (h : ProxyHeap) :
  (forall root i,
      (Build sp root i).1 = mkProxy (kn sp) root i (rendered sp) (buildError sp) /\
      (Build sp root i).2 = None /\
      rendered (Build zeroProxy root i).1 = None) /\
  (forall fields,
      rendered sp = None ->
      Schema_Build (yaml h) (low_BuildModel (yaml h) (vn sp) zeroSchema) (vn sp) (idx sp)
      = (fields, None) ->
      let s := List.length (schemas h) in
      let sp1 := mkProxy (kn sp) (vn sp) (idx sp) (Some s) (buildError sp) in
      let h1 := mkProxyHeap (yaml h) (schemas h ++ [fields]) in
      Schema sp h = (sp1, h1, Some s) /\
      schemas h !! s = None /\
      schemas h1 !! s = Some fields /\
      forall n h', Schema_again n sp1 h' = (sp1, h', Some s)) /\
  (forall sp1 h1 s,
      Schema sp h = (sp1, h1, Some s) ->
      forall n h', Schema_again n sp1 h' = (sp1, h', Some s)) /\
  (forall fields e,
      rendered sp = None ->
      Schema_Build (yaml h) (low_BuildModel (yaml h) (vn sp) zeroSchema) (vn sp) (idx sp)
      = (fields, Some e) ->
      exists sp1 h1, Schema sp h = (sp1, h1, None) /\ GetBuildError sp1 = Some e) /\
  (forall sp1 h1, Schema sp h = (sp1, h1, None) -> exists e, GetBuildError sp1 = Some e) /\
  (forall root i, GetBuildError (Build zeroProxy root i).1 = None) /\
  (forall sp1 h1 s,
      GetBuildError sp = None -> Schema sp h = (sp1, h1, Some s) ->
      GetBuildError sp1 = None).
Proof.
  split; [|split; [|split; [|split; [|split; [|split]]]]].
  - done.
  - intros fields Hr Hb s sp1 h1. split; [|split; [|split]].
    + unfold Schema. by rewrite Hr, Hb.
    + apply lookup_ge_None_2. subst s. lia.
    + subst s h1. simpl. rewrite lookup_app_r by lia.
      by rewrite Nat.sub_diag.
    + intros n h'. by apply Schema_again_rendered.
  - intros sp1 h1 s Hs n h'. apply Schema_again_rendered. by apply (Schema_some sp h sp1 h1).
  - intros fields e Hr Hb. unfold Schema. rewrite Hr, Hb. by eexists _, _.
  - intros sp1 h1. unfold Schema. destruct (rendered sp) as [s0|]; [done|].
    destruct (Schema_Build _ _ _ _) as [fields [e|]]; [|done].
    intros [= <- <-]. by exists e.
  - done.
  - intros sp1 h1 s He. unfold Schema. destruct (rendered sp) as [s0|].
    + by intros [= <- <- <-].
    + destruct (Schema_Build _ _ _ _) as [fields [e|]]; [done|]. by intros [= <- <- <-].
Qed.

(** C8 with the example builder: a proxy set up by Build() on the root
    mapping of [main.yaml] (node 2) has rendered nothing; the first call of
    Schema() allocates the schema built from node 2 at address 0 of an empty
    schema heap and returns it, and three more calls return that same schema
    and leave the heap alone. *)
Lemma Schema_memoizes_witness :
  let sp := (Build zeroProxy 2 (Some Demo.main_index)).1 in
  let h := mkProxyHeap (H:=Demo.demo_builder) Demo.demo_st [] in
  let sp1 := mkProxy 0 2 (Some Demo.main_index) (Some 0) None in
  let h1 := mkProxyHeap (H:=Demo.demo_builder) Demo.demo_st [2] in
  rendered sp = None /\
  Schema (H:=Demo.demo_builder) sp h = (sp1, h1, Some 0) /\
  schemas h1 !! 0 = Some 2 /\
  Schema_again (H:=Demo.demo_builder) 2 sp1 h1 = (sp1, h1, Some 0).
Proof.
  intros sp h sp1 h1.
  destruct (proj1 (proj2 (Schema_memoizes (H:=Demo.demo_builder) sp h)) 2)
    as (Hs & _ & Hread & Hagain).
  - reflexivity.
  - vm_compute. reflexivity.
  - split; [reflexivity|]. split; [exact Hs|]. split; [exact Hread|]. exact (Hagain 2 h1).
Defined.

(** ** What the inline bundler never does *)

Section Invariants.
Context `{IndexLookups} `{Renderer}.

(** A relation kept by the three log calls and by the one assignment of the
    bundler is kept by an iteration of [compact]. *)
Lemma compactReference_respects (R : St -> St -> Prop) preserveRefs ixs i root r st :
  Reflexive R -> Transitive R ->
  (forall lg lvl msg ref s,
      bundlerRecord (mkLog 0 lvl msg ref) -> R s (log_call lg lvl msg ref s).1) ->
  (forall p t target s,
      nodes s !! t = Some target -> R s (set_Content p (Content target) s).1) ->
  R st (compactReference preserveRefs ixs i root r st).1.
Proof.
  intros HR HT Hlog Hset. unfold compactReference.
  apply bind_respects; [done | done |].
  intros skip st1. destruct skip; [apply Hlog; by left|].
  unfold inlineReference. case_decide; [apply Hlog; right; by left|].
  destruct (mappedReferenceOf _ _ _ _) as [m|]; [|done].
  destruct (Circular m).
  - destruct (logger i) eqn:E; [|done]. rewrite <-E. apply Hlog. right; by right.
  - unfold bind, lift, deref.
    destruct (nodes st1 !! Node m) as [target|] eqn:Ht; [|done]. by apply (Hset _ (Node m)).
Qed.

Lemma bundle_respects_steps (R : St -> St -> Prop) depth model st :
  Reflexive R -> Transitive R ->
  (forall lg lvl msg ref s,
      bundlerRecord (mkLog 0 lvl msg ref) -> R s (log_call lg lvl msg ref s).1) ->
  (forall p t target s,
      nodes s !! t = Some target -> R s (set_Content p (Content target) s).1) ->
  R st (bundle depth model st).1.
Proof.
  intros HR HT Hlog Hset.
  destruct model as [model|]; [|done].
  destruct (Rolodex_ model) as [rolodex|] eqn:Hro; [|by unfold bundle; rewrite Hro].
  destruct (rootIndex rolodex) as [rootIdx|] eqn:Hri;
    [|by unfold bundle; rewrite Hro, Hri].
  apply (bundle_respects R depth model rolodex rootIdx); [done | done | done | done | |];
    intros; unfold compact; (apply for_each_respects; [done | done |]);
    intros; by apply compactReference_respects.
Qed.

Global Instance same_shape_refl : Reflexive same_shape.
Proof. intros st p. by destruct (nodes st !! p). Qed.
Global Instance same_shape_trans : Transitive same_shape.
Proof.
  intros a b c H1 H2 p. specialize (H1 p). specialize (H2 p).
  destruct (nodes a !! p), (nodes b !! p), (nodes c !! p); try done.
  destruct H1 as [E1 E2], H2 as [E3 E4]. split; congruence.
Qed.
Global Instance old_slices_refl : Reflexive old_slices.
Proof. intros st p n Hn. by exists p, n. Qed.
Global Instance old_slices_trans : Transitive old_slices.
Proof.
  intros a b c H1 H2 p n Hn. destruct (H2 p n Hn) as (q & nb & Hq & ->).
  by apply (H1 q nb).
Qed.
Global Instance logs_bundler_refl : Reflexive logs_bundler.
Proof. intros st. exists []. by rewrite app_nil_r. Qed.
Global Instance logs_bundler_trans : Transitive logs_bundler.
Proof.
  intros a b c (k1 & E1 & F1) (k2 & E2 & F2). exists (k1 ++ k2).
  rewrite E2, E1, app_assoc. split; [done|]. by apply Forall_app.
Qed.

End Invariants.

(** X1. Whatever the model, and whether it ends normally or panics, the
    inline bundler makes and loses no node and changes no node's kind or
    value; it writes no backing array and no configuration; and the
    [Content] of every node afterwards is a slice header that some node held
    before: [bundle] only moves existing child lists between nodes. *)
Theorem bundle_only_moves_content `{IndexLookups} `{Renderer}
    (depth : nat) (model : option Document) (st : St) :
  let st' := (bundle depth model st).1 in
  same_shape st st' /\
  arrays st' = arrays st /\ configs st' = configs st /\
  old_slices st st'.
Proof.
  intros st'. split; [|split; [|split]].
  - apply bundle_respects_steps; [apply _ ..| |].
    + intros lg lvl msg ref s _ p. unfold log_call. destruct lg; simpl;
        by destruct (nodes s !! p).
    + intros p t target s _ q. unfold set_Content, ptr in *.
      destruct (nodes s !! p) as [n|] eqn:Hp; simpl; [|by destruct (nodes s !! q)].
      destruct (decide (q = p)) as [->|Hne].
      * by rewrite Hp, lookup_insert_eq.
      * rewrite lookup_insert_ne by done. by destruct (nodes s !! q).
  - apply (bundle_same_arrays depth model st).
  - apply (bundle_same_arrays depth model st).
  - apply bundle_respects_steps; [apply _ ..| |].
    + intros lg lvl msg ref s _ q n' Hq. unfold log_call in Hq.
      destruct lg; simpl in Hq; by exists q, n'.
    + intros p t target s Ht q n' Hq. unfold set_Content, ptr in *.
      destruct (nodes s !! p) as [n|] eqn:Hp; simpl in Hq; [|by exists q, n'].
      destruct (decide (q = p)) as [->|Hne].
      * rewrite lookup_insert_eq in Hq. injection Hq as <-. by exists t, target.
      * rewrite lookup_insert_ne in Hq by done. by exists q, n'.
Qed.

(** X2. The inline bundler only ever appends to the log, and what it appends
    are its own three records: the two [Debug] skips and the [Warn] for a
    circular reference. *)
Theorem bundle_logs_only_append `{IndexLookups} `{Renderer}
    (depth : nat) (model : option Document) (st : St) :
  exists added,
    logs (bundle depth model st).1 = logs st ++ added /\ Forall bundlerRecord added.
Proof.
  apply (bundle_respects_steps logs_bundler); [apply _ ..| |].
  - intros lg lvl msg ref s Hb. unfold log_call. destruct lg as [l|]; simpl.
    + exists [mkLog l lvl msg ref]. split; [done|]. by apply Forall_singleton.
    + reflexivity.
  - intros p t target s _. unfold set_Content.
    destruct (nodes s !! p); simpl; [|reflexivity].
    exists []. by rewrite app_nil_r.
Qed.

(** ** The two passes as one list of iterations *)

Section Steps.
Context `{IndexLookups} `{Renderer}.

Lemma bind_ext {A B} (m m' : M A) (k k' : A -> M B) st :
  (forall s, m s = m' s) -> (forall a s, k a s = k' a s) -> bind m k st = bind m' k' st.
Proof. intros Hm Hk. unfold bind. rewrite Hm. by destruct (m' st) as [s [a|p]]. Qed.

Lemma bind_assoc {A B C} (m : M A) (f : A -> M B) (g : B -> M C) st :
  bind (bind m f) g st = bind m (fun a => bind (f a) g) st.
Proof. unfold bind. by destruct (m st) as [s [a|p]]. Qed.

Lemma for_each_app {A} (body : A -> M unit) (l1 l2 : list A) st :
  for_each body (l1 ++ l2) st = bind (for_each body l1) (fun _ => for_each body l2) st.
Proof.
  revert st. induction l1 as [|a l1 IH]; intros st; simpl; [done|].
  rewrite bind_assoc. by apply bind_ext.
Qed.

Lemma for_each_map {A B} (f : A -> B) (body : B -> M unit) (l : list A) st :
  for_each body (map f l) st = for_each (fun a => body (f a)) l st.
Proof. revert st. induction l as [|a l IH]; intros st; simpl; [done|]. by apply bind_ext. Qed.

Lemma for_each_flat_map {A B} (f : A -> list B) (body : B -> M unit) (l : list A) st :
  for_each body (flat_map f l) st = for_each (fun a => for_each body (f a)) l st.
Proof.
  revert st. induction l as [|a l IH]; intros st; simpl; [done|].
  rewrite for_each_app. by apply bind_ext.
Qed.

Lemma for_each_ext {A} (f g : A -> M unit) (l : list A) st :
  (forall a s, f a s = g a s) -> for_each f l st = for_each g l st.
Proof.
  intros Hfg. revert st. induction l as [|a l IH]; intros st; simpl; [done|].
  by apply bind_ext.
Qed.

(** The mutation phase of [bundle] is the iterations of [passSteps], in
    order. *)
Lemma bundle_as_steps depth model rolodex rootIdx preserveRefs st :
  Rolodex_ model = Some rolodex ->
  rootIndex rolodex = Some rootIdx ->
  collectPreserveRefs depth rootIdx (indexes rolodex) st = Ok preserveRefs ->
  bundle depth (Some model) st
  = bind (for_each (fun x : SpecIndex * bool * Reference =>
                      compactReference preserveRefs (indexes rolodex) x.1.1 x.1.2 x.2)
                   (passSteps rootIdx (indexes rolodex)))
         (fun _ => lift (fun s => Ok (Render model s))) st.
Proof.
  intros Hro Hri Hc. unfold bundle. rewrite Hro, Hri.
  unfold bind at 1, lift at 1. rewrite Hc. unfold passSteps.
  symmetry. etrans; [apply bind_ext; [apply for_each_app|done]|].
  rewrite bind_assoc. apply bind_ext.
  - intros s. rewrite for_each_flat_map. apply for_each_ext.
    intros i s'. unfold compact. by rewrite for_each_map.
  - intros _ s. apply bind_ext; [|done]. intros s'. unfold compact. by rewrite for_each_map.
Qed.

Lemma passSteps_index rootIdx ixs i r :
  i ∈ ixs -> r ∈ rawSequencedRefs i -> (i, false, r) ∈ passSteps rootIdx ixs.
Proof.
  intros Hi Hr. unfold passSteps. apply elem_of_app. left.
  apply list_elem_of_In, in_flat_map. exists i. split; [by apply list_elem_of_In|].
  apply in_map. by apply list_elem_of_In.
Qed.

Lemma passSteps_root rootIdx ixs r :
  r ∈ rawSequencedRefs rootIdx -> (rootIdx, true, r) ∈ passSteps rootIdx ixs.
Proof.
  intros Hr. unfold passSteps. apply elem_of_app. right.
  apply list_elem_of_In, in_map. by apply list_elem_of_In.
Qed.

(** What one iteration does to the node store, by its [inlineTarget]. *)
Lemma compactReference_no_target preserveRefs ixs i root r st :
  inlineTarget preserveRefs ixs i root r = None ->
  same_nodes st (compactReference preserveRefs ixs i root r st).1.
Proof.
  unfold inlineTarget, compactReference, bind, lift. intros Ht.
  destruct (skipsLocalRoot root r) as [[|]|e]; simpl; [apply log_call_same_nodes| |done].
  unfold inlineReference. case_decide; [apply log_call_same_nodes|].
  destruct (mappedReferenceOf ixs i root r) as [m|]; [|done].
  destruct (Circular m); [|done].
  destruct (logger i) eqn:E; [|done]. rewrite <-E. apply log_call_same_nodes.
Qed.

Lemma compactReference_target preserveRefs ixs i root r t st :
  inlineTarget preserveRefs ixs i root r = Some t ->
  (compactReference preserveRefs ixs i root r st).2 = Ok tt ->
  exists site target,
    nodes st !! Node r = Some site /\ nodes st !! t = Some target /\
    nodes (compactReference preserveRefs ixs i root r st).1
    = <[Node r := mkNode (Kind_ site) (Value site) (Content target)]> (nodes st).
Proof.
  unfold inlineTarget, compactReference, bind, lift. intros Ht.
  destruct (skipsLocalRoot root r) as [[|]|e]; simpl; [done| |done].
  unfold inlineReference. case_decide; [done|].
  destruct (mappedReferenceOf ixs i root r) as [m|]; [|done].
  destruct (Circular m); [done|]. injection Ht as <-.
  unfold bind, lift, deref, set_Content.
  destruct (nodes st !! Node m) as [target|] eqn:Hm; simpl; [|done].
  destruct (nodes st !! Node r) as [site|] eqn:Hr; simpl; [|done].
  intros _. by exists site, target.
Qed.

Lemma inlineTarget_none preserveRefs ixs i root r :
  FullDefinition r ∈ preserveRefs \/
  allMappedRefs i !! FullDefinition r = None \/
  (exists m, allMappedRefs i !! FullDefinition r = Some m /\ Circular m = true) \/
  skipsLocalRoot root r = Ok true ->
  inlineTarget preserveRefs ixs i root r = None.
Proof.
  unfold inlineTarget. intros Hc.
  destruct (skipsLocalRoot root r) as [[|]|e]; [done| |done].
  case_decide; [done|].
  destruct Hc as [?|[Hn|[(m & Hm & Hcirc)|?]]]; [done| | |done].
  - assert (mappedReferenceOf ixs i root r = None) as ->; [|done].
    unfold mappedReferenceOf. rewrite Hn.
    destruct (strings_Split _ _) as [|file [|frag [|? ?]]]; try done.
    destruct root; [|done]. clear. induction ixs as [|j l IH]; simpl; [done|].
    rewrite IH. by case_decide.
  - by rewrite (mappedReferenceOf_circular ixs i root r m Hm Hcirc), Hcirc.
Qed.

End Steps.

(** X3. The inline bundler writes a node only through an iteration that
    reaches the assignment. A node at which every recorded reference is
    preserved, or has no mapped reference, or has a circular one, or is
    skipped as a local root reference in the root pass, comes out of
    [bundle] as it went in; so does every node at which no reference is
    recorded. *)
Theorem bundle_leaves_other_nodes `{IndexLookups} `{Renderer}
    (depth : nat) (model : Document) (rolodex : Rolodex) (rootIdx : SpecIndex)
    (p : ptr) (st : St) :
  Rolodex_ model = Some rolodex ->
  rootIndex rolodex = Some rootIdx ->
  (forall preserveRefs i root r,
      collectPreserveRefs depth rootIdx (indexes rolodex) st = Ok preserveRefs ->
      (i, root, r) ∈ passSteps rootIdx (indexes rolodex) ->
      Node r = p ->
      FullDefinition r ∈ preserveRefs \/
      allMappedRefs i !! FullDefinition r = None \/
      (exists m, allMappedRefs i !! FullDefinition r = Some m /\ Circular m = true) \/
      skipsLocalRoot root r = Ok true) ->
  nodes (bundle depth (Some model) st).1 !! p = nodes st !! p.
Proof.
  intros Hro Hri Hp.
  assert (forall preserveRefs i root s,
             collectPreserveRefs depth rootIdx (indexes rolodex) st = Ok preserveRefs ->
             (forall r, r ∈ rawSequencedRefs i ->
                        (i, root, r) ∈ passSteps rootIdx (indexes rolodex)) ->
             same_node p s (compact preserveRefs (indexes rolodex) i root s).1) as Hpass.
  { intros pres i root s Hc Hin. unfold compact.
    apply for_each_respects; [apply _ ..|]. intros r s1 Hr.
    destruct (decide (Node r = p)) as [Heq|Hne].
    - apply same_nodes_same_node, compactReference_no_target, inlineTarget_none.
      by apply (Hp pres i root r Hc (Hin r Hr)).
    - apply compactReference_same_node. by intros ?. }
  apply (bundle_respects (same_node p) depth model rolodex rootIdx);
    [apply _ | apply _ | done | done | |].
  - intros pres i s Hc Hi. apply Hpass; [done|]. intros r Hr. by apply passSteps_index.
  - intros pres s Hc. apply Hpass; [done|]. intros r Hr. by apply passSteps_root.
Qed.

(** X3 on the two-file document: the reference to [A] (node 4) is local to
    the root file and keeps its [$ref]. *)
Lemma bundle_leaves_other_nodes_witness :
  nodes (bundle (H:=Demo.demo_lookups) (H0:=Demo.demo_renderer) 10
           (Some Demo.demo_model) Demo.demo_st).1 !! 4
  = Some (Demo.mapping 4 2).
Proof.
  refine (eq_trans
    (bundle_leaves_other_nodes (H:=Demo.demo_lookups) (H0:=Demo.demo_renderer)
       10 Demo.demo_model Demo.demo_rolodex Demo.main_index 4 Demo.demo_st
       eq_refl eq_refl _) _).
  - intros pres i root r _ Hin Hn. simpl in Hin.
    repeat (apply elem_of_cons in Hin as [[= -> -> ->]|Hin]); try discriminate Hn.
    + right; right; right. vm_compute. reflexivity.
    + by apply elem_of_nil in Hin.
  - vm_compute. reflexivity.
Defined.

(** ** What a run of bundle leaves at an inlined site *)

Section InlinedSite.
Context `{IndexLookups}.
Variable preserveRefs : gset string.
Variable ixs : list SpecIndex.
Variable site target : ptr.
Variable siteNode targetNode : YamlNode.

Local Abbreviation step :=
  (fun x : SpecIndex * bool * Reference => compactReference preserveRefs ixs x.1.1 x.1.2 x.2).
Local Abbreviation targetOf :=
  (fun x : SpecIndex * bool * Reference => inlineTarget preserveRefs ixs x.1.1 x.1.2 x.2).
Local Abbreviation inlined :=
  (mkNode (Kind_ siteNode) (Value siteNode) (Content targetNode)).

(** While the iterations run, the target is as it was and the site is
    either as it was or already inlined; once an iteration on the site has
    reached the assignment, the site is inlined and stays so. *)
Lemma steps_inline (l : list (SpecIndex * bool * Reference)) :
  (forall x, x ∈ l -> Node x.2 = site -> targetOf x = Some target \/ targetOf x = None) ->
  (forall x, x ∈ l -> Node x.2 = target -> targetOf x = None) ->
  forall s,
    nodes s !! target = Some targetNode ->
    nodes s !! site = Some siteNode \/ nodes s !! site = Some inlined ->
    (for_each step l s).2 = Ok tt ->
    let s' := (for_each step l s).1 in
    nodes s' !! target = Some targetNode /\
    (nodes s' !! site = Some siteNode \/ nodes s' !! site = Some inlined) /\
    ((exists x, x ∈ l /\ Node x.2 = site /\ targetOf x = Some target) \/
     nodes s !! site = Some inlined ->
     nodes s' !! site = Some inlined).
Proof.
  induction l as [|x l IH]; intros Hsite Htarget s Ht Hs Hok; simpl.
  - split; [done|]. split; [done|]. intros [(x & Hx & _)|?]; [|done].
    by apply elem_of_nil in Hx.
  - simpl in Hok. apply bind_ok_inv in Hok as Hinv. destruct Hinv as ([] & Hx & Heq).
    rewrite Heq in *.
    set (s1 := (step x s).1) in *.
    assert (nodes s1 !! target = Some targetNode /\
            (nodes s1 !! site = Some siteNode \/ nodes s1 !! site = Some inlined) /\
            ((Node x.2 = site /\ targetOf x = Some target) \/
             nodes s !! site = Some inlined -> nodes s1 !! site = Some inlined))
      as (Ht1 & Hs1 & Hdone).
    { destruct (targetOf x) as [t|] eqn:Hx'.
      - destruct (compactReference_target _ _ _ _ _ t s Hx' Hx)
          as (sn & tn & Hsn & Htn & Hnodes).
        subst s1. unfold ptr in *. rewrite Hnodes.
        destruct (decide (Node x.2 = site)) as [Hat|Hne].
        + destruct (Hsite x (list_elem_of_here _ _) Hat) as [Heq'|?]; [|congruence].
          assert (t = target) as -> by congruence.
          assert (target <> site) as Hts.
          { intros <-. pose proof (Htarget x (list_elem_of_here _ _) Hat). congruence. }
          assert (tn = targetNode) as -> by congruence.
          rewrite Hat, lookup_insert_eq, lookup_insert_ne by done.
          assert (mkNode (Kind_ sn) (Value sn) (Content targetNode) = inlined) as ->.
          { rewrite Hat in Hsn. destruct Hs as [Hs|Hs]; rewrite Hs in Hsn;
              by injection Hsn as <-. }
          split; [done|]. split; [by right|done].
        + assert (Node x.2 <> target) as Hnt.
          { intros Hat. pose proof (Htarget x (list_elem_of_here _ _) Hat). congruence. }
          rewrite !lookup_insert_ne by done.
          split; [done|]. split; [done|]. intros [[? _]|?]; done.
      - pose proof (compactReference_no_target _ _ _ _ _ s Hx') as Hsame.
        unfold same_nodes in Hsame. fold s1 in Hsame. rewrite Hsame.
        split; [done|]. split; [done|]. intros [[_ ?]|?]; [congruence|done]. }
    destruct (IH (fun y Hy => Hsite y (list_elem_of_further _ _ _ Hy))
                 (fun y Hy => Htarget y (list_elem_of_further _ _ _ Hy))
                 s1 Ht1 Hs1 Hok) as (Ht2 & Hs2 & Hdone2).
    split; [done|]. split; [done|].
    intros [(y & Hy & Hat & Hy')|Hin].
    + apply elem_of_cons in Hy as [->|Hy].
      * apply Hdone2. right. apply Hdone. by left.
      * apply Hdone2. left. by exists y.
    + apply Hdone2. right. apply Hdone. by right.
Qed.

End InlinedSite.

(** X4. What a run of [bundle] that ends normally leaves at an inlined
    site. Take a site some iteration of which reaches the assignment from
    the target [target]; let every iteration located at the site either do
    the same or write nothing, and let no iteration write the target. Then
    after [bundle] the site has its own kind and value and the [Content] the
    target had before the run, and the target is as it was. *)
Theorem bundle_inlines_site `{IndexLookups} `{Renderer}
    (depth : nat) (model : Document) (rolodex : Rolodex) (rootIdx : SpecIndex)
    (preserveRefs : gset string) (st : St) (out : option bytes * option error)
    (i0 : SpecIndex) (root0 : bool) (r0 : Reference) (target : ptr)
    (siteNode targetNode : YamlNode) :
  Rolodex_ model = Some rolodex ->
  rootIndex rolodex = Some rootIdx ->
  collectPreserveRefs depth rootIdx (indexes rolodex) st = Ok preserveRefs ->
  (bundle depth (Some model) st).2 = Ok out ->
  (i0, root0, r0) ∈ passSteps rootIdx (indexes rolodex) ->
  inlineTarget preserveRefs (indexes rolodex) i0 root0 r0 = Some target ->
  (forall i root r,
      (i, root, r) ∈ passSteps rootIdx (indexes rolodex) -> Node r = Node r0 ->
      inlineTarget preserveRefs (indexes rolodex) i root r = Some target \/
      inlineTarget preserveRefs (indexes rolodex) i root r = None) ->
  (forall i root r,
      (i, root, r) ∈ passSteps rootIdx (indexes rolodex) -> Node r = target ->
      inlineTarget preserveRefs (indexes rolodex) i root r = None) ->
  nodes st !! Node r0 = Some siteNode ->
  nodes st !! target = Some targetNode ->
  let st' := (bundle depth (Some model) st).1 in
  nodes st' !! Node r0 = Some (mkNode (Kind_ siteNode) (Value siteNode) (Content targetNode)) /\
  nodes st' !! target = Some targetNode.
Proof.
  intros Hro Hri Hc Hok Hin Ht0 Hsite Htarget Hs Ht st'. subst st'.
  rewrite (bundle_as_steps depth model rolodex rootIdx preserveRefs st Hro Hri Hc) in *.
  apply bind_ok_inv in Hok as Hinv. destruct Hinv as ([] & Hsteps & Heq). rewrite Heq.
  unfold lift. simpl.
  destruct (steps_inline preserveRefs (indexes rolodex) (Node r0) target siteNode targetNode
              (passSteps rootIdx (indexes rolodex))
              (fun x Hx => Hsite x.1.1 x.1.2 x.2 ltac:(by destruct x as [[??]?]))
              (fun x Hx => Htarget x.1.1 x.1.2 x.2 ltac:(by destruct x as [[??]?]))
              st Ht (or_introl Hs) Hsteps) as (Ht' & _ & Hdone).
  split; [|done]. apply Hdone. left. by exists (i0, root0, r0).
Qed.

(** X4 on the two-file document: after [bundle] the reference to [Tree]
    (node 6) holds the slice of [Tree] (node 33), which is unchanged. *)
Lemma bundle_inlines_site_witness :
  let st' := (bundle (H:=Demo.demo_lookups) (H0:=Demo.demo_renderer) 10
                (Some Demo.demo_model) Demo.demo_st).1 in
  nodes st' !! 6 = Some (mkNode MappingNode "" (mkSlice 33 0 4)) /\
  nodes st' !! 33 = Some (Demo.mapping 33 4).
Proof.
  apply (bundle_inlines_site (H:=Demo.demo_lookups) (H0:=Demo.demo_renderer)
           10 Demo.demo_model Demo.demo_rolodex Demo.main_index
           {[ Demo.ext_path +:+ Demo.def_Cat ]} Demo.demo_st (Some "rendered", None)
           Demo.main_index true Demo.site_b 33 (Demo.mapping 6 2) (Demo.mapping 33 4)).
  - reflexivity.
  - reflexivity.
  - vm_compute. reflexivity.
  - vm_compute. reflexivity.
  - simpl. apply list_elem_of_further, list_elem_of_further, list_elem_of_here.
  - vm_compute. reflexivity.
  - intros i root r Hin Hn. simpl in Hin.
    repeat (apply elem_of_cons in Hin as [[= -> -> ->]|Hin]); try discriminate Hn.
    + left. vm_compute. reflexivity.
    + by apply elem_of_nil in Hin.
  - intros i root r Hin Hn. simpl in Hin.
    repeat (apply elem_of_cons in Hin as [[= -> -> ->]|Hin]); try discriminate Hn.
    by apply elem_of_nil in Hin.
  - vm_compute. reflexivity.
  - vm_compute. reflexivity.
Defined.

(** ** Re-resolution in the root pass *)

(** X5. The loop of the root pass that looks for the index owning the file
    part of a reference never invents a mapped reference and never replaces
    a circular one; a mapped reference that is there and not circular is
    replaced by the component found in the first index, in rolodex order,
    that sits at that path and knows the definition, and otherwise kept. *)
Theorem useCorrectIndex_first_match `{IndexLookups}
    (ixs : list SpecIndex) (file definition : string) (mappedReference : option Reference) :
  useCorrectIndex ixs file definition mappedReference
  = match mappedReference with
    | Some m =>
        if Circular m then Some m
        else Some (default m
                     (head (omap (fun i => if decide (specAbsolutePath i = file)
                                           then FindComponent i definition
                                           else None) ixs)))
    | None => None
    end.
Proof.
  induction ixs as [|i ixs IH]; simpl.
  - destruct mappedReference as [m|]; [|done]. by destruct (Circular m).
  - rewrite IH. destruct mappedReference as [m|]; [|by case_decide].
    destruct (Circular m); [by case_decide|].
    case_decide; [|done]. by destruct (FindComponent i definition).
Qed.

(** ** Splitting a full definition *)

Lemma append_empty_r (s : string) : s +:+ EmptyString = s.
Proof.
  induction s as [|c s IH]; [reflexivity|].
  change (String c (s +:+ EmptyString) = String c s). by rewrite IH.
Qed.

Lemma append_assoc (a b c : string) : (a +:+ b) +:+ c = a +:+ (b +:+ c).
Proof.
  induction a as [|x a IH]; [reflexivity|].
  change (String x ((a +:+ b) +:+ c) = String x (a +:+ (b +:+ c))). by rewrite IH.
Qed.

Lemma strings_Contains_cons (c : ascii) (s sub : string) :
  strings_Contains (String c s) sub = false ->
  String.prefix sub (String c s) = false /\ strings_Contains s sub = false.
Proof. simpl. intros Hc. by apply orb_false_elim in Hc. Qed.

Lemma split_without_separator (s : string) :
  strings_Contains s "#/" = false ->
  forall cur, split_from "#/" s 0 cur = [cur +:+ s].
Proof.
  induction s as [|c s IH]; intros Hc cur.
  - simpl. by rewrite append_empty_r.
  - apply strings_Contains_cons in Hc as [Hp Hc].
    cbn [split_from]. rewrite Hp, (IH Hc), append_assoc. done.
Qed.

Lemma split_around_separator (a b : string) :
  strings_Contains a "#/" = false ->
  strings_Contains b "#/" = false ->
  forall cur, split_from "#/" (a +:+ "#/" +:+ b) 0 cur = [cur +:+ a; b].
Proof.
  induction a as [|c a IH]; intros Ha Hb cur.
  - change (EmptyString +:+ "#/" +:+ b) with (String "#" (String "/" b)).
    rewrite append_empty_r.
    cbn. assert (String.prefix EmptyString b = true) as -> by (by destruct b).
    by rewrite (split_without_separator b Hb).
  - apply strings_Contains_cons in Ha as [Hp Ha].
    change (String c a +:+ "#/" +:+ b) with (String c (a +:+ "#/" +:+ b)).
    assert (String.prefix "#/" (String c (a +:+ "#/" +:+ b)) = false) as Hp'.
    { cbn [String.prefix] in *. destruct (ascii_dec "#" c) as [<-|]; [|done].
      destruct a as [|d a]; [reflexivity|].
      change (String d a +:+ "#/" +:+ b) with (String d (a +:+ "#/" +:+ b)).
      cbn [String.prefix] in *.
      destruct (ascii_dec "/" d); [by destruct a|done]. }
    cbn [split_from]. rewrite Hp', (IH Ha Hb), append_assoc. done.
Qed.

(** X6. Which references the root pass skips as local, read off the full
    definition. A full definition without ["#/"] is never skipped, and
    reading it never touches [sequenced.Index]. A full definition
    [file#/fragment], with no further ["#/"], is skipped exactly in the
    root pass and exactly when [file] is empty or is the path of the
    reference's own index; in the pass over the other indexes nothing is
    skipped. With a nil [Index] the comparison panics, in either pass. *)
Theorem skipsLocalRoot_by_shape (root : bool) (sequenced : Reference) :
  (strings_Contains (FullDefinition sequenced) "#/" = false ->
   skipsLocalRoot root sequenced = Ok false) /\
  (forall file fragment,
      FullDefinition sequenced = file +:+ "#/" +:+ fragment ->
      strings_Contains file "#/" = false ->
      strings_Contains fragment "#/" = false ->
      skipsLocalRoot root sequenced
      = match Index sequenced with
        | Some path => Ok ((bool_decide (file = path) || bool_decide (file = "")) && root)
        | None => Panic NilDereference
        end).
Proof.
  unfold skipsLocalRoot, strings_Split. split.
  - intros Hc. by rewrite (split_without_separator _ Hc).
  - intros file fragment -> Hf Hg. by rewrite (split_around_separator file fragment Hf Hg).
Qed.

(** X6 on the reference to [A] of the two-file document, whose full
    definition is [/spec/main.yaml#/components/schemas/A]. *)
Lemma skipsLocalRoot_by_shape_witness :
  skipsLocalRoot true Demo.site_a = Ok true /\ skipsLocalRoot false Demo.site_a = Ok false.
Proof.
  split.
  - apply (eq_trans (proj2 (skipsLocalRoot_by_shape true Demo.site_a)
                       "/spec/main.yaml" "components/schemas/A" eq_refl eq_refl eq_refl)).
    reflexivity.
  - apply (eq_trans (proj2 (skipsLocalRoot_by_shape false Demo.site_a)
                       "/spec/main.yaml" "components/schemas/A" eq_refl eq_refl eq_refl)).
    reflexivity.
Defined.

(** ** The preserve set of a run *)

Lemma collect_nodePins `{IndexLookups} st depth i p (pinned r : gset string) :
  collectDiscriminatorMappingValues st depth i p pinned = Ok r ->
  forall x, x ∈ r <->
            x ∈ pinned \/
            exists q n, Visits st p q /\ unwrapDocument st q = Ok n /\ nodePins st i n x.
Proof.
  intros Hr x. rewrite (collect_spec st i depth p pinned r Hr x). split.
  - intros [?|(q & pins & Hv & Ho & Hx)]; [by left|right].
    destruct (ownPins_nodePins st i q pins Ho) as (n & Hn & Hpins).
    exists q, n. split; [done|]. split; [done|]. by apply Hpins.
  - intros [?|(q & n & Hv & Hn & Hx)]; [by left|right].
    destruct (collect_ok_visits st i p q Hv depth pinned r Hr) as (d' & p' & r' & Hq).
    destruct (collect_ok_ownPins st i d' q p' r' n Hq Hn (proj1 Hx)) as [pins Ho].
    exists q, pins. split; [done|]. split; [done|].
    destruct (ownPins_nodePins st i q pins Ho) as (n' & Hn' & Hpins).
    rewrite Hn in Hn'. injection Hn' as <-. by apply Hpins.
Qed.

(** X7. The preserve set that [bundle] works with is the union, over the
    root index and the other indexes, of what the mapping nodes reachable
    from each index's root node pin for themselves, each searched from its
    own index. It does not depend on the order of the indexes, nor on the
    root index being walked first. *)
Theorem preserve_set_is_union `{IndexLookups}
    (depth : nat) (rootIdx : SpecIndex) (ixs : list SpecIndex) (st : St)
    (preserveRefs : gset string) :
  collectPreserveRefs depth rootIdx ixs st = Ok preserveRefs ->
  forall x, x ∈ preserveRefs <->
            exists i q n, i ∈ rootIdx :: ixs /\ Visits st (rootNode i) q /\
                          unwrapDocument st q = Ok n /\ nodePins st i n x.
Proof.
  unfold collectPreserveRefs. intros Hc x.
  destruct (collectDiscriminatorMappingValues st depth rootIdx (rootNode rootIdx) ∅)
    as [r1|e] eqn:H1; simpl in Hc; [|done].
  rewrite (res_fold_elem
             (fun pinned i => collectDiscriminatorMappingValues st depth i (rootNode i) pinned)
             (fun i x => exists q n, Visits st (rootNode i) q /\
                                     unwrapDocument st q = Ok n /\ nodePins st i n x)
             ixs (fun i pinned r Hr => collect_nodePins st depth i (rootNode i) pinned r Hr)
             r1 preserveRefs Hc x).
  rewrite (collect_nodePins st depth rootIdx (rootNode rootIdx) ∅ r1 H1 x). split.
  - intros [[Hx|(q & n & Hrest)]|(i & Hi & q & n & Hrest)].
    + by apply not_elem_of_empty in Hx.
    + exists rootIdx, q, n. split; [by left|done].
    + exists i, q, n. split; [by right|done].
  - intros (i & q & n & Hi & Hrest). apply elem_of_cons in Hi as [->|Hi].
    + left; right. by exists q, n.
    + right. exists i. split; [done|]. by exists q, n.
Qed.

(** X7 on the two-file document: what the run pins is pinned by a node
    reachable from the root of one of the two files. *)
Lemma preserve_set_is_union_witness :
  exists i q n,
    i ∈ [Demo.main_index; Demo.ext_index] /\ Visits Demo.demo_st (rootNode i) q /\
    unwrapDocument Demo.demo_st q = Ok n /\
    nodePins (H:=Demo.demo_lookups) Demo.demo_st i n (Demo.ext_path +:+ Demo.def_Cat).
Proof.
  apply (preserve_set_is_union (H:=Demo.demo_lookups) 10 Demo.main_index [Demo.ext_index]
           Demo.demo_st {[ Demo.ext_path +:+ Demo.def_Cat ]}).
  - vm_compute. reflexivity.
  - apply elem_of_singleton. reflexivity.
Defined.

(** ** The depth bound of the walk *)

Section Depth.
Context `{IndexLookups}.
Variable st : St.
Variable idx : SpecIndex.

Lemma res_fold_mono {A} (f g : gset string -> A -> res (gset string)) (l : list A) :
  (forall a pinned r, f pinned a = Ok r -> g pinned a = Ok r) ->
  forall pinned r, res_fold f l pinned = Ok r -> res_fold g l pinned = Ok r.
Proof.
  intros Hfg. induction l as [|a l IH]; intros pinned r Hr; simpl in *; [done|].
  destruct (f pinned a) as [r1|e] eqn:E; simpl in Hr; [|done].
  rewrite (Hfg a pinned r1 E). simpl. by apply IH.
Qed.

Lemma walkPairs_mono (f g : ptr -> gset string -> res (gset string)) (l : list ptr) :
  (forall c pinned r, f c pinned = Ok r -> g c pinned = Ok r) ->
  forall lc pinned out, walkPairs st f l lc pinned = Ok out -> walkPairs st g l lc pinned = Ok out.
Proof.
  intros Hfg. induction l as [| a | k v l IH] using pairs_ind; intros lc pinned out Hr;
    simpl in *; [done..|].
  destruct (deref st k) as [kn|e]; simpl in *; [|done].
  destruct (f v pinned) as [r1|e] eqn:E; simpl in Hr; [|done].
  rewrite (Hfg v pinned r1 E). simpl. by apply IH.
Qed.

(** A walk that ends normally within a depth bound ends with the same set
    within any larger one. *)
Lemma collect_depth_mono depth :
  forall depth' p pinned r,
    depth <= depth' ->
    collectDiscriminatorMappingValues st depth idx p pinned = Ok r ->
    collectDiscriminatorMappingValues st depth' idx p pinned = Ok r.
Proof.
  induction depth as [|depth IH]; intros depth' p pinned r Hle Hr; [done|].
  destruct depth' as [|depth']; [lia|]. simpl in *.
  destruct (unwrapDocument st p) as [n|e]; simpl in *; [|done].
  assert (forall c pinned r,
             collectDiscriminatorMappingValues st depth idx c pinned = Ok r ->
             collectDiscriminatorMappingValues st depth' idx c pinned = Ok r) as Hrec.
  { intros c q r' Hc. apply (IH depth' c q r'); [lia|done]. }
  destruct (Kind_ n); try done.
  - by apply (res_fold_mono _ _ _ (fun a q r' => Hrec a q r')).
  - destruct (walkPairs st (collectDiscriminatorMappingValues st depth idx) _ _ _)
      as [out|e] eqn:Hw; simpl in Hr; [|done].
    by rewrite (walkPairs_mono _ _ _ Hrec _ _ _ Hw).
Qed.

End Depth.

(** X8. On a tree in which every child pointer is a node and every mapping
    node has an even number of children, the discriminator walk ends
    normally as long as no mapping node it lands on has, under its key
    [discriminator], a mapping node with a key [mapping] over a node with an
    odd number of children: once the depth bound reaches the height of the
    tree the walk ends with one and the same set whatever the bound, and
    that set contains everything that was pinned before. When the walk
    lands on a node with such a discriminator, it panics at every depth
    bound. *)
Theorem walk_ends_on_well_formed `{IndexLookups}
    (st : St) (idx : SpecIndex) (height : nat) (p : ptr) (pinned : gset string) :
  wellFormed st height p = true ->
  ((forall q n, Visits st p q -> unwrapDocument st q = Ok n ->
                oddDiscriminator st n = false) ->
   exists r, pinned ⊆ r /\
             forall depth, height <= depth ->
                           collectDiscriminatorMappingValues st depth idx p pinned = Ok r) /\
  (forall q n, Visits st p q -> unwrapDocument st q = Ok n ->
               oddDiscriminator st n = true ->
               forall depth, exists e,
                 collectDiscriminatorMappingValues st depth idx p pinned = Panic e).
Proof.
  intros Hw. split.
  - intros Hodd.
    destruct (collect_total st idx height height p (le_n _) Hw Hodd pinned) as [r Hr].
    exists r. split.
    + intros x Hx. apply (collect_spec st idx height p pinned r Hr x). by left.
    + intros depth Hle. by apply (collect_depth_mono st idx height depth).
  - intros q n Hv Hn Hodd depth.
    destruct (collectDiscriminatorMappingValues st depth idx p pinned) as [r|e] eqn:Hr;
      [|by exists e].
    by rewrite (collect_ok_even st idx depth p pinned r q n Hr Hv Hn) in Hodd.
Qed.

(** X8 on the two-file document, whose main tree has height 6 and whose one
    discriminator has no [mapping]. *)
Lemma walk_ends_on_well_formed_witness :
  exists r, (∅ : gset string) ⊆ r /\
            forall depth, 6 <= depth ->
                          collectDiscriminatorMappingValues (H:=Demo.demo_lookups)
                            Demo.demo_st depth Demo.main_index 1 ∅ = Ok r.
Proof.
  apply (walk_ends_on_well_formed (H:=Demo.demo_lookups) Demo.demo_st Demo.main_index 6 1 ∅).
  - vm_compute. reflexivity.
  - intros q n Hv Hn. apply negb_true_iff.
    apply (visitedAll_spec Demo.demo_st
             (fun n => negb (oddDiscriminator Demo.demo_st n)) 1 q Hv 6 n);
      [vm_compute; reflexivity|exact Hn].
Defined.

(** ** A discriminator mapping with an odd number of children *)

Section OddMapping.
Context `{IndexLookups}.
Variable st : St.
Variable idx : SpecIndex.

Lemma walkMappingEntries_odd l :
  Nat.even (List.length l) = false ->
  (forall v, v ∈ pairValues l -> is_Some (nodes st !! v)) ->
  forall pinned, walkMappingEntries st idx l pinned = Panic IndexOutOfRange.
Proof.
  induction l as [| a | k v l IH] using pairs_ind; intros He Hv pinned; simpl; [done..|].
  destruct (Hv v) as [vn Hvn]; [simpl; by left|]. unfold deref. rewrite Hvn. simpl.
  apply IH; [done|]. intros w Hw. apply Hv. simpl. by right.
Qed.

Lemma walkDiscriminatorEntries_skip pre l pinned :
  plainPairs st pre = true ->
  walkDiscriminatorEntries st idx (pre ++ l) pinned = walkDiscriminatorEntries st idx l pinned.
Proof.
  induction pre as [| a | k v pre IH] using pairs_ind; intros Hp; simpl in *; [done..|].
  unfold deref. destruct (nodes st !! k) as [kn|]; [|done]. simpl.
  apply andb_prop in Hp as [Hk Hp]. apply negb_true_iff, bool_decide_eq_false in Hk.
  rewrite decide_False by done. by apply IH.
Qed.

End OddMapping.

(** X9. A discriminator whose [mapping] value has an odd number of children
    stops the bundler with an index out of range. When the discriminator is
    a mapping node, the keys before [mapping] are nodes, and the value under
    [mapping] is a node with an odd number of children whose values are all
    nodes (a sequence of one item, say), walkDiscriminatorMapping panics,
    and so does the pinning of any node that has this discriminator. *)
Theorem discriminator_mapping_odd_panics `{IndexLookups}
    (st : St) (idx : SpecIndex) (d : ptr) (dn : YamlNode) (pre rest : list ptr)
    (k mn : ptr) (kn mnn : YamlNode) :
  nodes st !! d = Some dn ->
  Kind_ dn = MappingNode ->
  elems st (Content dn) = pre ++ k :: mn :: rest ->
  plainPairs st pre = true ->
  nodes st !! k = Some kn -> Value kn = "mapping" ->
  nodes st !! mn = Some mnn ->
  Nat.even (List.length (elems st (Content mnn))) = false ->
  (forall v, v ∈ pairValues (elems st (Content mnn)) -> is_Some (nodes st !! v)) ->
  forall pinned,
    walkDiscriminatorMapping st idx dn pinned = Panic IndexOutOfRange /\
    forall lc, discriminator lc = Some d -> pinNode st idx lc pinned = Panic IndexOutOfRange.
Proof.
  intros Hd Hk He Hpre Hkn Hval Hmn Hodd Hvals pinned.
  assert (walkDiscriminatorMapping st idx dn pinned = Panic IndexOutOfRange) as Hw.
  { unfold walkDiscriminatorMapping. rewrite decide_True by done.
    rewrite He, (walkDiscriminatorEntries_skip st idx pre _ pinned Hpre). simpl.
    unfold deref. rewrite Hkn. simpl. rewrite decide_True by done. rewrite Hmn. simpl.
    by rewrite (walkMappingEntries_odd st idx _ Hodd Hvals). }
  split; [done|]. intros lc Hlc. unfold pinNode. by rewrite Hlc, Hd, Hw.
Qed.

(** X9 on [{propertyName: kind, mapping: [x]}]. *)
Lemma discriminator_mapping_odd_panics_witness :
  walkDiscriminatorMapping (H:=Demo.demo_lookups) Demo.odd_mapping_st Demo.main_index
    (Demo.mapping 1 4) ∅ = Panic IndexOutOfRange.
Proof.
  apply (discriminator_mapping_odd_panics (H:=Demo.demo_lookups) Demo.odd_mapping_st
           Demo.main_index 1 (Demo.mapping 1 4) [2; 3] [] 4 5
           (Demo.scalar "mapping") (Demo.sequence 5 1)).
  - vm_compute. reflexivity.
  - reflexivity.
  - vm_compute. reflexivity.
  - vm_compute. reflexivity.
  - vm_compute. reflexivity.
  - reflexivity.
  - vm_compute. reflexivity.
  - vm_compute. reflexivity.
  - intros v Hv. vm_compute in Hv. by apply elem_of_nil in Hv.
Defined.

(** ** More on the schema proxy *)

(** X10. A failed build is not remembered. When Schema() returns nil the
    proxy is still unrendered and one more [Schema] object has been
    allocated and dropped; a second call over the same nodes builds again,
    fails again with the same error and allocates again. *)
Theorem Schema_retries_failed_build `{SchemaBuilder}
    (sp sp1 : SchemaProxy) (h h1 : ProxyHeap) :
  Schema sp h = (sp1, h1, None) ->
  rendered sp1 = None /\
  yaml h1 = yaml h /\
  exists fields e,
    schemas h1 = schemas h ++ [fields] /\
    GetBuildError sp1 = Some e /\
    Schema sp1 h1 = (sp1, mkProxyHeap (yaml h) (schemas h ++ [fields; fields]), None).
Proof.
  unfold Schema. destruct (rendered sp) as [s|] eqn:Hr; [done|].
  destruct (Schema_Build (yaml h) _ (vn sp) (idx sp)) as [fields [e|]] eqn:Hb; [|done].
  intros [= <- <-]. simpl. split; [done|]. split; [done|].
  exists fields, e. split; [done|]. split; [done|].
  rewrite Hb. by rewrite <-app_assoc.
Qed.

(** X10 with the example builder on a proxy whose node is nil. *)
Lemma Schema_retries_failed_build_witness :
  rendered (mkProxy 0 0 None None (Some (External "schema build failed"))) = None.
Proof.
  apply (Schema_retries_failed_build (H:=Demo.demo_builder) zeroProxy
           (mkProxy 0 0 None None (Some (External "schema build failed")))
           (mkProxyHeap (H:=Demo.demo_builder) Demo.demo_st [])
           (mkProxyHeap (H:=Demo.demo_builder) Demo.demo_st [0])).
  vm_compute. reflexivity.
Defined.

(** X11. Nothing clears a build error. Schema() either leaves [buildError]
    as it is or stores a new error, and Build() leaves it as it is: after a
    failure, GetBuildError() keeps returning an error even when a later
    Schema() succeeds. Nor does Build() drop a rendered schema: a proxy
    pointed at another node or index goes on returning the schema it
    rendered first. *)
Theorem buildError_is_never_cleared `{SchemaBuilder}
    (sp : SchemaProxy) (h : ProxyHeap) (root : ptr) (i : option SpecIndex) :
  (is_Some (GetBuildError sp) -> is_Some (GetBuildError (Schema sp h).1.1)) /\
  (forall sp1 h1 s, Schema sp h = (sp1, h1, Some s) -> GetBuildError sp1 = GetBuildError sp) /\
  GetBuildError (Build sp root i).1 = GetBuildError sp /\
  (forall s, rendered sp = Some s ->
             Schema (Build sp root i).1 h = ((Build sp root i).1, h, Some s)).
Proof.
  split; [|split; [|split]].
  - intros He. unfold Schema. destruct (rendered sp); [done|].
    destruct (Schema_Build _ _ _ _) as [fields [e|]]; simpl; [by eexists|done].
  - intros sp1 h1 s. unfold Schema. destruct (rendered sp) as [s0|].
    + by intros [= <- <- <-].
    + destruct (Schema_Build _ _ _ _) as [fields [e|]]; [done|]. by intros [= <- <- <-].
  - done.
  - intros s Hr. unfold Schema, Build. simpl. by rewrite Hr.
Qed.

(** X11 with the example builder: a proxy that failed on a nil node and was
    then pointed at node 2 renders, and still reports the old error. *)
Lemma buildError_is_never_cleared_witness :
  GetBuildError (mkProxy 0 2 None (Some 1) (Some (External "schema build failed")))
  = Some (External "schema build failed").
Proof.
  apply (proj1 (proj2 (buildError_is_never_cleared (H:=Demo.demo_builder)
                         (mkProxy 0 2 None None (Some (External "schema build failed")))
                         (mkProxyHeap (H:=Demo.demo_builder) Demo.demo_st [0]) 2 None))
               (mkProxy 0 2 None (Some 1) (Some (External "schema build failed")))
               (mkProxyHeap (H:=Demo.demo_builder) Demo.demo_st [0; 2]) 1).
  vm_compute. reflexivity.
Defined.

(** X12. A first successful Schema() allocates exactly one [Schema], at a
    fresh address, holding what the build produced: the returned pointer is
    the number of schemas allocated before, reading it gives those fields,
    every schema allocated before is where and what it was, and the nodes
    are untouched. *)
Theorem Schema_allocates_once `{SchemaBuilder}
    (sp sp1 : SchemaProxy) (h h1 : ProxyHeap) (s : nat) :
  rendered sp = None ->
  Schema sp h = (sp1, h1, Some s) ->
  s = List.length (schemas h) /\
  schemas h1 !! s
  = Some (Schema_Build (yaml h) (low_BuildModel (yaml h) (vn sp) zeroSchema)
                       (vn sp) (idx sp)).1 /\
  List.length (schemas h1) = S (List.length (schemas h)) /\
  (forall a, a < s -> schemas h1 !! a = schemas h !! a) /\
  yaml h1 = yaml h /\
  vn sp1 = vn sp /\ idx sp1 = idx sp.
Proof.
  intros Hr. unfold Schema. rewrite Hr.
  destruct (Schema_Build (yaml h) _ (vn sp) (idx sp)) as [fields [e|]] eqn:Hb; [done|].
  intros [= <- <- <-]. simpl. split; [done|]. split; [|split; [|split]].
  - rewrite lookup_app_r by done. by rewrite Nat.sub_diag.
  - rewrite length_app. simpl. lia.
  - intros a Ha. by rewrite lookup_app_l.
  - done.
Qed.

(** X12 with the example builder on the root mapping of [main.yaml]
    (node 2): the second schema of the heap is the one just built. *)
Lemma Schema_allocates_once_witness :
  schemas (mkProxyHeap (H:=Demo.demo_builder) Demo.demo_st [0; 2]) !! 1 = Some 2.
Proof.
  refine (eq_trans
    (proj1 (proj2 (Schema_allocates_once (H:=Demo.demo_builder)
                     (mkProxy 0 2 None None None) (mkProxy 0 2 None (Some 1) None)
                     (mkProxyHeap (H:=Demo.demo_builder) Demo.demo_st [0])
                     (mkProxyHeap (H:=Demo.demo_builder) Demo.demo_st [0; 2]) 1
                     eq_refl _))) _).
  - vm_compute. reflexivity.
  - vm_compute. reflexivity.
Defined.

(** ** What bundle and BundleBytes return *)

(** X13. The inline bundler has no error of its own. When [bundle] ends
    normally, the bytes and the error it returns are exactly what [Render]
    returns on the heap the bundler leaves: a reference that could not be
    resolved, a circular one or a skipped one adds no error. *)
Theorem bundle_returns_render `{IndexLookups} `{Renderer}
    (depth : nat) (model : option Document) (st : St) (out : option bytes * option error) :
  (bundle depth model st).2 = Ok out ->
  exists d, model = Some d /\ out = Render d (bundle depth model st).1.
Proof.
  destruct model as [d|]; [|done]. intros Hok. exists d. split; [done|].
  unfold bundle in *.
  destruct (Rolodex_ d) as [rolodex|]; [|done].
  destruct (rootIndex rolodex) as [rootIdx|]; [|done].
  apply bind_ok_inv in Hok as Hinv. destruct Hinv as (pres & _ & Heq). rewrite Heq in *.
  apply bind_ok_inv in Hok as Hinv. destruct Hinv as ([] & _ & Heq'). rewrite Heq' in *.
  apply bind_ok_inv in Hok as Hinv. destruct Hinv as ([] & _ & Heq''). rewrite Heq'' in *.
  unfold lift in *. simpl in *. by injection Hok as <-.
Qed.

(** X13 on the two-file document. *)
Lemma bundle_returns_render_witness :
  exists d, Some Demo.demo_model = Some d /\
            (Some "rendered", None)
            = Render (Renderer:=Demo.demo_renderer) d
                (bundle (H:=Demo.demo_lookups) (H0:=Demo.demo_renderer) 10
                   (Some Demo.demo_model) Demo.demo_st).1.
Proof.
  apply (bundle_returns_render (H:=Demo.demo_lookups) (H0:=Demo.demo_renderer) 10
           (Some Demo.demo_model) Demo.demo_st (Some "rendered", None)).
  vm_compute. reflexivity.
Defined.



(** ** Loggers *)

Lemma compactReference_debug_needs_logger `{IndexLookups} preserveRefs ixs i root r st :
  logger i = None ->
  skipsLocalRoot root r = Ok true \/ FullDefinition r ∈ preserveRefs ->
  (compactReference preserveRefs ixs i root r st).2 <> Ok tt.
Proof.
  intros Hl Hd. unfold compactReference, bind, lift.
  destruct (skipsLocalRoot root r) as [[|]|e]; simpl; [by rewrite Hl| |done].
  destruct Hd as [?|Hp]; [done|].
  unfold inlineReference. rewrite decide_True by done. by rewrite Hl.
Qed.

(** X16. Only the warning for a circular reference is guarded against a nil
    logger; the two [Debug] calls are not. So a run of [bundle] that ends
    normally had a logger on every index one of whose references was
    skipped as a local root reference or was in the preserve set; and it
    found a non-nil [Index] on every reference whose full definition splits
    in two. *)
Theorem bundle_needs_loggers `{IndexLookups} `{Renderer}
    (depth : nat) (model : Document) (rolodex : Rolodex) (rootIdx : SpecIndex)
    (preserveRefs : gset string) (st : St) (out : option bytes * option error) :
  Rolodex_ model = Some rolodex ->
  rootIndex rolodex = Some rootIdx ->
  collectPreserveRefs depth rootIdx (indexes rolodex) st = Ok preserveRefs ->
  (bundle depth (Some model) st).2 = Ok out ->
  forall i root r,
    (i, root, r) ∈ passSteps rootIdx (indexes rolodex) ->
    (exists b, skipsLocalRoot root r = Ok b) /\
    (skipsLocalRoot root r = Ok true \/ FullDefinition r ∈ preserveRefs ->
     is_Some (logger i)).
Proof.
  intros Hro Hri Hc Hok i root r Hin.
  rewrite (bundle_as_steps depth model rolodex rootIdx preserveRefs st Hro Hri Hc) in Hok.
  apply bind_ok_inv in Hok as ([] & Hsteps & _).
  destruct (for_each_reaches (fun _ _ => True)
              (fun x : SpecIndex * bool * Reference =>
                 compactReference preserveRefs (indexes rolodex) x.1.1 x.1.2 x.2)
              (passSteps rootIdx (indexes rolodex))
              (fun _ => I) (fun _ _ _ _ _ => I) (fun _ _ => I)
              st (i, root, r) Hin Hsteps) as (s1 & _ & Hrun & _).
  simpl in Hrun. split.
  - by apply (compactReference_ok_skips preserveRefs (indexes rolodex) i root r s1).
  - intros Hd. destruct (logger i) as [l|] eqn:Hl; [by eexists|].
    by destruct (compactReference_debug_needs_logger preserveRefs (indexes rolodex)
                   i root r s1 Hl Hd).
Qed.

(** X16 on the two-file document: the root index, whose reference to [A] is
    skipped as local, has a logger. *)
Lemma bundle_needs_loggers_witness :
  is_Some (logger Demo.main_index).
Proof.
  pose proof (bundle_needs_loggers (H:=Demo.demo_lookups) (H0:=Demo.demo_renderer)
                10 Demo.demo_model Demo.demo_rolodex Demo.main_index
                {[ Demo.ext_path +:+ Demo.def_Cat ]} Demo.demo_st (Some "rendered", None)
                eq_refl eq_refl) as Hthm.
  destruct (Hthm ltac:(vm_compute; reflexivity) ltac:(vm_compute; reflexivity)
                 Demo.main_index true Demo.site_a) as [_ Hlogger].
  - simpl. apply list_elem_of_further, list_elem_of_here.
  - apply Hlogger. left. vm_compute. reflexivity.
Defined.
